(** * Domineering search engine

    A shallow embedding of the alpha-beta searcher of the Domineering player
    ([Searcher.cpp]) and of its static evaluation framework ([Evaluators.h]),
    together with the properties the design document states about them.

    Conventions of the embedding:
    - scores ([Evaluator::score_t], an [int]) are integers of [Z]; the boards
      considered are far too small for the counters to wrap;
    - cell contents are characters ([ascii]), coordinates are [Z] (the
      evaluators compute [r - 1] on [int]s), ply depths are [nat]; the
      depth limit is an [unsigned] of 32 bits, and the one sum the search
      computes on it that can wrap, [depth_limit + 1], wraps;
    - the per-depth table [best_moves] is a list updated by index, an access
      out of its range is reported as [Fault];
    - the move-order cache [ordered_moves] is a finite map keyed by the
      position. *)

From Stdlib Require Import Ascii.
From stdpp Require Import base numbers list sorting gmap strings.

(** ** Sides, placements, positions *)

Inductive Who := HOME | AWAY.

#[global] Instance Who_eq_dec : EqDecision Who.
Proof. solve_decision. Defined.

#[global] Instance Who_countable : Countable Who.
Proof.
  refine (inj_countable' (λ w, match w with HOME => true | AWAY => false end)
                         (λ b : bool, if b then HOME else AWAY) _).
  by intros [].
Defined.

(** [Location] (and [DomineeringMove], which carries the same four
    coordinates): the two cells of a domino. *)
Record Location := mkLocation { r1 : Z; c1 : Z; r2 : Z; c2 : Z }.

#[global] Instance Location_eq_dec : EqDecision Location.
Proof. solve_decision. Defined.

(** Modelled from the spec: [DomineeringState] is the Position collaborator;
    its class is not among the sources.  It exposes cell read and write, the
    board dimensions, the active side and its toggle.  The grid is a list of
    rows. *)
Record DomineeringState := mkState {
  ROWS : Z;
  COLS : Z;
  board : list (list ascii);
  who : Who
}.

#[global] Instance DomineeringState_eq_dec : EqDecision DomineeringState.
Proof. solve_decision. Defined.

#[global] Instance DomineeringState_countable : Countable DomineeringState.
Proof.
  refine (inj_countable'
            (λ s, (ROWS s, COLS s, board s, who s))
            (λ t, match t with (r, c, b, w) => mkState r c b w end) _).
  by intros [].
Defined.

(** Modelled from the spec: the three cell symbols of the Position (empty,
    Home, Away).  The old evaluators compare the current player's symbol
    with ['W'] and ['B']. *)
Definition EMPTYSYM : ascii := "."%char.
Definition HOMESYM : ascii := "W"%char.
Definition AWAYSYM : ascii := "B"%char.

(** [Evaluator::MARKEDSYM] *)
Definition MARKEDSYM : ascii := "!"%char.

Definition in_board (r c : Z) (state : DomineeringState) : bool :=
  bool_decide (0 ≤ r)%Z && bool_decide (r < ROWS state)%Z &&
  bool_decide (0 ≤ c)%Z && bool_decide (c < COLS state)%Z.

(** Modelled from the spec: cell read.  Outside the grid the model answers
    the NUL character, which is none of the symbols.  The evaluators check
    the bounds before they read ([grid_empty]); [mark] and [clear_marks]
    read without a check and are called on cells of the board. *)
Definition getCell (r c : Z) (state : DomineeringState) : ascii :=
  if in_board r c state
  then default "000"%char (board state !! Z.to_nat r ≫= (.!! Z.to_nat c))
  else "000"%char.

(** Modelled from the spec: cell write.  A write outside the grid leaves the
    position as it is. *)
Definition setCell (r c : Z) (sym : ascii) (state : DomineeringState)
  : DomineeringState :=
  if in_board r c state
  then mkState (ROWS state) (COLS state)
               (alter (<[Z.to_nat c := sym]>) (Z.to_nat r) (board state))
               (who state)
  else state.

Definition toggle (w : Who) : Who :=
  match w with HOME => AWAY | AWAY => HOME end.

(** Modelled from the spec: the active-player toggle of the Position. *)
Definition togglePlayer (state : DomineeringState) : DomineeringState :=
  mkState (ROWS state) (COLS state) (board state) (toggle (who state)).

(** The two nested scans the sources use: row-major ([for r ... for c ...])
    and column-major ([for c ... for r ...]). *)
Definition for_rows_cols {A} (state : DomineeringState)
    (body : Z → Z → A → A) (init : A) : A :=
  foldl (λ acc r, foldl (λ acc c, body r c acc) acc (seqZ 0 (COLS state)))
        init (seqZ 0 (ROWS state)).

Definition for_cols_rows {A} (state : DomineeringState)
    (body : Z → Z → A → A) (init : A) : A :=
  foldl (λ acc c, foldl (λ acc r, body r c acc) acc (seqZ 0 (ROWS state)))
        init (seqZ 0 (COLS state)).

(** ** Evaluators.h *)

Module Evaluator.

(** [mark]: only an empty cell takes the mark. *)
Definition mark (r c : Z) (state : DomineeringState) : DomineeringState :=
  if bool_decide (getCell r c state ≠ EMPTYSYM) then state
  else setCell r c MARKEDSYM state.

(** [clear_marks]: every marked cell reverts to empty. *)
Definition clear_marks (state : DomineeringState) : DomineeringState :=
  for_rows_cols state
    (λ i j st, if bool_decide (getCell i j st = MARKEDSYM)
               then setCell i j EMPTYSYM st else st)
    state.

Definition grid_empty (r c : Z) (state : DomineeringState) : bool :=
  if bool_decide (r < 0)%Z || bool_decide (ROWS state ≤ r)%Z ||
     bool_decide (c < 0)%Z || bool_decide (COLS state ≤ c)%Z
  then false
  else bool_decide (getCell r c state = EMPTYSYM).

Definition placable (r1 c1 r2 c2 : Z) (state : DomineeringState) : bool :=
  grid_empty r1 c1 state && grid_empty r2 c2 state.

Definition reserved_for_home (r1 c1 r2 c2 : Z) (state : DomineeringState)
  : bool :=
  if negb (placable r1 c1 r2 c2 state) then false
  else
    let no_space_above := negb (grid_empty (r1 + 1) c1 state) &&
                          negb (grid_empty (r2 + 1) c2 state) in
    let no_space_below := negb (grid_empty (r1 - 1) c1 state) &&
                          negb (grid_empty (r2 - 1) c2 state) in
    no_space_above && no_space_below.

Definition reserved_for_away (r1 c1 r2 c2 : Z) (state : DomineeringState)
  : bool :=
  if negb (placable r1 c1 r2 c2 state) then false
  else
    let no_space_to_left := negb (grid_empty r1 (c1 - 1) state) &&
                            negb (grid_empty r2 (c2 - 1) state) in
    let no_space_to_right := negb (grid_empty r1 (c1 + 1) state) &&
                             negb (grid_empty r2 (c2 + 1) state) in
    no_space_to_left && no_space_to_right.

End Evaluator.

(** A scoring pass works on the scratch position it is handed ([DS*]) and
    returns its count together with the scratch position it leaves. *)
Definition EvalScore := DomineeringState → Z * DomineeringState.
Definition EvalFactor := DomineeringState → Z.

Definition EvalHomeReserved : EvalScore := λ state,
  for_rows_cols state
    (λ r c '(home_count, st),
       if Evaluator.reserved_for_home r c r (c + 1) st
       then ((home_count + 1)%Z,
             Evaluator.mark r (c + 1) (Evaluator.mark r c st))
       else (home_count, st))
    (0%Z, state).

Definition EvalHomeOpen : EvalScore := λ state,
  for_cols_rows state
    (λ r c '(home_count, st),
       if Evaluator.placable r c r (c + 1) st
       then ((home_count + 1)%Z,
             Evaluator.mark r (c + 1) (Evaluator.mark r c st))
       else (home_count, st))
    (0%Z, state).

Definition EvalAwayReserved : EvalScore := λ state,
  for_cols_rows state
    (λ r c '(away_count, st),
       if Evaluator.reserved_for_away r c (r + 1) c st
       then ((away_count + 1)%Z,
             Evaluator.mark (r + 1) c (Evaluator.mark r c st))
       else (away_count, st))
    (0%Z, state).

Definition EvalAwayOpen : EvalScore := λ state,
  for_cols_rows state
    (λ r c '(away_count, st),
       if Evaluator.placable r c (r + 1) c st
       then ((away_count + 1)%Z,
             Evaluator.mark (r + 1) c (Evaluator.mark r c st))
       else (away_count, st))
    (0%Z, state).

Definition ClearMarks : EvalScore := λ state,
  (0%Z, Evaluator.clear_marks state).

(** The ordered table of (scoring pass, weight). *)
Definition evaluators : list (EvalScore * EvalFactor) :=
  [ (EvalHomeReserved, λ _, 2%Z);
    (EvalHomeOpen, λ _, 1%Z);
    (ClearMarks, λ _, 0%Z);
    (EvalAwayReserved, λ _, (-2)%Z);
    (EvalAwayOpen, λ _, (-1)%Z);
    (ClearMarks, λ _, 0%Z) ].

(** One turn of the loop of [Searcher::evaluate]: the weight reads the
    caller's position, the pass works on the scratch copy. *)
Definition evaluate_step (state : DomineeringState)
    (acc : Z * DomineeringState) (p : EvalScore * EvalFactor)
  : Z * DomineeringState :=
  let eval_func := p.1 in
  let factor_func := p.2 in
  let '(v, state_copy) := eval_func acc.2 in
  ((acc.1 + factor_func state * v)%Z, state_copy).

(** [Searcher::evaluate], keeping the scratch copy it ends with. *)
Definition evaluate_run (state : DomineeringState) : Z * DomineeringState :=
  let state_copy := state in
  foldl (evaluate_step state) (0%Z, state_copy) evaluators.

Definition evaluate (state : DomineeringState) : Z := (evaluate_run state).1.

(** ** Move nodes and the alpha-beta window *)

(** The record of one ply.  [team], [depth], [parent_move] and [is_unset] are
    the members [Searcher.cpp] reads and writes directly; [score] and
    [is_terminal] are the values behind its accessors of the same names. *)
Record Node := mkNode {
  team : Who;
  depth : nat;
  parent_move : Location;
  score : Z;
  is_unset : bool;
  is_terminal : bool
}.

#[global] Instance Node_eq_dec : EqDecision Node.
Proof. solve_decision. Defined.

(** Modelled from the spec: the default constructor [Node()], a placeholder
    with no placement whose score is not computed yet ([is_unset]). *)
Definition Node_default : Node :=
  mkNode HOME 0 (mkLocation 0 0 0 0) 0 true false.

(** Modelled from the spec: the constructor [Node(team, depth, location)]
    of an unscored node. *)
Definition Node_new (t : Who) (d : nat) (loc : Location) : Node :=
  mkNode t d loc 0 true false.

(** Modelled from the spec: [Node::set_score] records the score, which is no
    longer unset. *)
Definition set_score (v : Z) (n : Node) : Node :=
  mkNode (team n) (depth n) (parent_move n) v false (is_terminal n).

(** Modelled from the spec: the bound tracker [AlphaBeta]. *)
Record AlphaBeta := mkAlphaBeta { alpha : Z; beta : Z }.

(** Modelled from the spec: [alpha] rises to a larger value of Home, [beta]
    falls to a smaller value of Away. *)
Definition update_if_needed (value : Z) (side : Who) (ab : AlphaBeta)
  : AlphaBeta :=
  match side with
  | HOME => if bool_decide (alpha ab < value)%Z
            then mkAlphaBeta value (beta ab) else ab
  | AWAY => if bool_decide (value < beta ab)%Z
            then mkAlphaBeta (alpha ab) value else ab
  end.

(** Modelled from the spec: the cutoff test. *)
Definition can_prune (value : Z) (side : Who) (ab : AlphaBeta) : bool :=
  match side with
  | HOME => bool_decide (beta ab ≤ value)%Z
  | AWAY => bool_decide (value ≤ alpha ab)%Z
  end.

(** ** The engine *)

(** The members of [Searcher] the search works on.  The transposition table
    is not used by the search (its calls are commented out) and is left
    out. *)
Record Searcher := mkSearcher {
  root : Node;
  best_moves : list Node;
  ordered_moves : gmap DomineeringState (list Node)
}.

(** How a run ends: normally, by an access outside [best_moves] (undefined
    behaviour of [operator[]]), or because the fuel of the model ran out. *)
Inductive outcome (A : Type) :=
| Done (a : A)
| Fault
| OutOfFuel.
Arguments Done {A} a.
Arguments Fault {A}.
Arguments OutOfFuel {A}.

(** [best_moves[d] = n] *)
Definition store_best (d : nat) (n : Node) (s : Searcher) : outcome Searcher :=
  match best_moves s !! d with
  | Some _ => Done (mkSearcher (root s) (<[d := n]> (best_moves s))
                               (ordered_moves s))
  | None => Fault
  end.

(** [ordered_moves[key].push_back(n)] *)
Definition push_ordered (key : DomineeringState) (n : Node) (s : Searcher)
  : Searcher :=
  mkSearcher (root s) (best_moves s)
    (<[key := default [] (ordered_moves s !! key) ++ [n]]> (ordered_moves s)).

(** [ordered_moves.clear()] *)
Definition clear_ordered (s : Searcher) : Searcher :=
  mkSearcher (root s) (best_moves s) ∅.

(** Modelled from the spec: the order of [Node]s ([operator<], used through
    [std::less] and [std::greater]) compares scores. *)
Definition Node_le (a b : Node) : Prop := (score a ≤ score b)%Z.
Definition Node_ge (a b : Node) : Prop := (score b ≤ score a)%Z.

#[global] Instance Node_le_dec : RelDecision Node_le.
Proof. intros a b. unfold Node_le. apply _. Defined.
#[global] Instance Node_ge_dec : RelDecision Node_ge.
Proof. intros a b. unfold Node_ge. apply _. Defined.

(** [Searcher::move_order]: every cached ordering is sorted, best first for
    the given side.  [std::sort] fixes no order among equal scores; the
    model sorts with a merge sort. *)
Definition move_order (t : Who) (s : Searcher) : Searcher :=
  mkSearcher (root s) (best_moves s)
    ((λ moves, match t with
               | HOME => merge_sort Node_ge moves
               | AWAY => merge_sort Node_le moves
               end) <$> ordered_moves s).

(** The depth limit is an [unsigned], 32 bits wide: the size the table is
    given, [depth_limit + 1], wraps to 0 at [UINT_MAX]. *)
Definition UINT_MAX : Z := 4294967295%Z.

Definition unsigned_succ (n : nat) : nat :=
  Z.to_nat (Z.modulo (Z.of_nat n + 1) (UINT_MAX + 1)).

Section Engine.

(** The two sentinels of [AlphaBeta] and the legality check of the
    Position, [DomineeringState::moveOK], are declared outside the
    sources; the engine is parametric in them. *)
Variables NEG_INF POS_INF : Z.
Variable moveOK : DomineeringState → Location → bool.

(** Modelled from the spec: [Node::set_as_terminal(state)] marks the node
    terminal with the sentinel that favours the side that is not to move
    in [state]: Home maximises, so a position in which Away is stuck is
    worth [POS_INF]. *)
Definition set_as_terminal (state : DomineeringState) (n : Node) : Node :=
  mkNode (team n) (depth n) (parent_move n)
         (match who state with HOME => NEG_INF | AWAY => POS_INF end)
         false true.

(** [Searcher::expand] *)
Definition expand (parent : Node) (current_state : DomineeringState)
  : list Node :=
  let child_team := match team parent with HOME => AWAY | AWAY => HOME end in
  let child_depth := depth parent + 1 in
  for_rows_cols current_state
    (λ r1 c1 children,
       let r2 := match team parent with HOME => r1 | AWAY => (r1 + 1)%Z end in
       let c2 := match team parent with HOME => (c1 + 1)%Z | AWAY => c1 end in
       let parent_move := mkLocation r1 c1 r2 c2 in
       if moveOK current_state parent_move
       then children ++ [Node_new child_team child_depth parent_move]
       else children)
    [].

(** [Searcher::tap]: the cells of the placement take the symbol of the
    side that placed it, the opponent of the node's team. *)
Definition tap (node : Node) (state : DomineeringState) : DomineeringState :=
  let c := match team node with HOME => AWAYSYM | AWAY => HOMESYM end in
  setCell (r2 (parent_move node)) (c2 (parent_move node)) c
    (setCell (r1 (parent_move node)) (c1 (parent_move node)) c state).

(** [Searcher::untap] *)
Definition untap (node : Node) (state : DomineeringState) : DomineeringState :=
  let c := EMPTYSYM in
  setCell (r2 (parent_move node)) (c2 (parent_move node)) c
    (setCell (r1 (parent_move node)) (c1 (parent_move node)) c state).

(** The choice of the children in [search_under]: the cached ordering at
    the root when there is one, which empties the cache, the move
    generator otherwise. *)
Definition children_of (parent : Node) (current_state : DomineeringState)
    (s : Searcher) : list Node * Searcher :=
  match ordered_moves s !! current_state with
  | Some ordered =>
      if bool_decide (depth parent = 0)
      then (ordered, clear_ordered s)
      else (expand parent current_state, s)
  | None => (expand parent current_state, s)
  end.

(** The [for] loop of [search_under] over the children.  [rec] is the
    recursive call; [next_state] is the local position the loop places
    the children on and takes them off again; the loop hands it back with
    the engine so that its value at every exit can be stated. *)
Fixpoint search_children
    (rec : Node → AlphaBeta → DomineeringState → Searcher → outcome Searcher)
    (parent : Node) (current_state : DomineeringState)
    (children : list Node) (ab : AlphaBeta) (next_state : DomineeringState)
    (s : Searcher) : outcome (Searcher * DomineeringState) :=
  match children with
  | [] => Done (s, next_state)
  | child :: rest =>
    let next_state := tap child next_state in
    match rec child ab next_state s with
    | Done s =>
      let next_state := untap child next_state in
      match best_moves s !! (depth parent + 1) with
      | None => Fault
      | Some next_move =>
        let result := score next_move in
        let child := set_score result child in
        if is_terminal next_move then
          match store_best (depth parent)
                           (set_as_terminal next_state child) s with
          | Done s => Done (s, next_state)
          | Fault => Fault
          | OutOfFuel => OutOfFuel
          end
        else
          let s := if bool_decide (depth parent = 2)
                   then push_ordered current_state child s else s in
          match best_moves s !! depth parent with
          | None => Fault
          | Some current_best =>
            let result_better :=
              match team parent with
              | HOME => bool_decide (score current_best < result)%Z
              | AWAY => bool_decide (result < score current_best)%Z
              end in
            if result_better || is_unset current_best then
              match store_best (depth parent) child s with
              | Done s =>
                let ab := update_if_needed result (team parent) ab in
                if can_prune result (team parent) ab
                then Done (s, next_state)
                else search_children rec parent current_state rest ab
                                     next_state s
              | Fault => Fault
              | OutOfFuel => OutOfFuel
              end
            else search_children rec parent current_state rest ab
                                 next_state s
          end
      end
    | Fault => Fault
    | OutOfFuel => OutOfFuel
    end
  end.

(** [Searcher::search_under].  The recursion of the source is bounded by
    the depth limit; the model recurses on [fuel]. *)
Fixpoint search_under (fuel : nat) (parent : Node) (ab : AlphaBeta)
    (current_state : DomineeringState) (depth_limit : nat) (s : Searcher)
  : outcome Searcher :=
  match fuel with
  | 0 => OutOfFuel
  | S fuel =>
    if bool_decide (depth_limit ≤ depth parent) then
      store_best (depth parent)
                 (set_score (evaluate current_state) parent) s
    else
      let '(children, s) := children_of parent current_state s in
      match best_moves s !! depth parent with
      | None => Fault
      | Some current_best =>
        match children with
        | [] =>
          store_best (depth parent)
                     (set_as_terminal current_state parent) s
        | _ :: _ =>
          match store_best (depth parent)
                  (set_score (match team parent with
                              | HOME => NEG_INF
                              | AWAY => POS_INF
                              end) current_best) s with
          | Done s =>
            let next_state := togglePlayer current_state in
            match search_children
                    (λ child ab st s,
                       search_under fuel child ab st depth_limit s)
                    parent current_state children ab next_state s with
            | Done (s, _) => Done s
            | Fault => Fault
            | OutOfFuel => OutOfFuel
            end
          | Fault => Fault
          | OutOfFuel => OutOfFuel
          end
        end
      end
  end.

(** [Searcher::search].  The re-sort of the cache runs in a thread of its
    own, which the next call joins before anything else; the engine this
    function returns is the one the next call works on, with the cache
    sorted.  The table is resized to [depth_limit + 1] entries, a sum the
    source computes on [unsigned].  [S depth_limit] nested calls are enough
    for a search from a root at depth 0. *)
Definition search (state : DomineeringState) (depth_limit : nat)
    (s : Searcher) : outcome (Node * Searcher) :=
  let s := mkSearcher (root s)
                      (replicate (unsigned_succ depth_limit) Node_default)
                      (ordered_moves s) in
  let ab := mkAlphaBeta NEG_INF POS_INF in
  match search_under (S depth_limit) (root s) ab state depth_limit s with
  | Done s =>
    match best_moves s with
    | front :: _ => Done (front, move_order (team (root s)) s)
    | [] => Fault
    end
  | Fault => Fault
  | OutOfFuel => OutOfFuel
  end.

(** *** The search with pruning disabled

    Following the spec's words (re-running with pruning disabled): the
    same loop, the same recursion and the same entry point, without the
    [can_prune] test and its early return. *)
Fixpoint search_children_no_pruning
    (rec : Node → AlphaBeta → DomineeringState → Searcher → outcome Searcher)
    (parent : Node) (current_state : DomineeringState)
    (children : list Node) (ab : AlphaBeta) (next_state : DomineeringState)
    (s : Searcher) : outcome (Searcher * DomineeringState) :=
  match children with
  | [] => Done (s, next_state)
  | child :: rest =>
    let next_state := tap child next_state in
    match rec child ab next_state s with
    | Done s =>
      let next_state := untap child next_state in
      match best_moves s !! (depth parent + 1) with
      | None => Fault
      | Some next_move =>
        let result := score next_move in
        let child := set_score result child in
        if is_terminal next_move then
          match store_best (depth parent)
                           (set_as_terminal next_state child) s with
          | Done s => Done (s, next_state)
          | Fault => Fault
          | OutOfFuel => OutOfFuel
          end
        else
          let s := if bool_decide (depth parent = 2)
                   then push_ordered current_state child s else s in
          match best_moves s !! depth parent with
          | None => Fault
          | Some current_best =>
            let result_better :=
              match team parent with
              | HOME => bool_decide (score current_best < result)%Z
              | AWAY => bool_decide (result < score current_best)%Z
              end in
            if result_better || is_unset current_best then
              match store_best (depth parent) child s with
              | Done s =>
                let ab := update_if_needed result (team parent) ab in
                search_children_no_pruning rec parent current_state rest ab
                                           next_state s
              | Fault => Fault
              | OutOfFuel => OutOfFuel
              end
            else search_children_no_pruning rec parent current_state rest ab
                                 next_state s
          end
      end
    | Fault => Fault
    | OutOfFuel => OutOfFuel
    end
  end.

Fixpoint search_under_no_pruning (fuel : nat) (parent : Node) (ab : AlphaBeta)
    (current_state : DomineeringState) (depth_limit : nat) (s : Searcher)
  : outcome Searcher :=
  match fuel with
  | 0 => OutOfFuel
  | S fuel =>
    if bool_decide (depth_limit ≤ depth parent) then
      store_best (depth parent)
                 (set_score (evaluate current_state) parent) s
    else
      let '(children, s) := children_of parent current_state s in
      match best_moves s !! depth parent with
      | None => Fault
      | Some current_best =>
        match children with
        | [] =>
          store_best (depth parent)
                     (set_as_terminal current_state parent) s
        | _ :: _ =>
          match store_best (depth parent)
                  (set_score (match team parent with
                              | HOME => NEG_INF
                              | AWAY => POS_INF
                              end) current_best) s with
          | Done s =>
            let next_state := togglePlayer current_state in
            match search_children_no_pruning
                    (λ child ab st s,
                       search_under_no_pruning fuel child ab st depth_limit s)
                    parent current_state children ab next_state s with
            | Done (s, _) => Done s
            | Fault => Fault
            | OutOfFuel => OutOfFuel
            end
          | Fault => Fault
          | OutOfFuel => OutOfFuel
          end
        end
      end
  end.

Definition search_no_pruning (state : DomineeringState) (depth_limit : nat)
    (s : Searcher) : outcome (Node * Searcher) :=
  let s := mkSearcher (root s)
                      (replicate (unsigned_succ depth_limit) Node_default)
                      (ordered_moves s) in
  let ab := mkAlphaBeta NEG_INF POS_INF in
  match search_under_no_pruning (S depth_limit) (root s) ab state depth_limit s with
  | Done s =>
    match best_moves s with
    | front :: _ => Done (front, move_order (team (root s)) s)
    | [] => Fault
    end
  | Fault => Fault
  | OutOfFuel => OutOfFuel
  end.

End Engine.

(** ** A concrete Position

    Modelled from the spec: the legality check of the Position.  A placement
    is legal when its two cells are on the board and empty and lie in the
    orientation of the side to move: Home places horizontally, Away
    vertically. *)
Definition legal_placement (state : DomineeringState) (m : Location) : bool :=
  Evaluator.placable (r1 m) (c1 m) (r2 m) (c2 m) state &&
  match who state with
  | HOME => bool_decide (r2 m = r1 m) && bool_decide (c2 m = c1 m + 1)%Z
  | AWAY => bool_decide (r2 m = r1 m + 1)%Z && bool_decide (c2 m = c1 m)
  end.

(** The sentinels of a 32-bit [int] score. *)
Definition INT_MIN : Z := (-2147483648)%Z.
Definition INT_MAX : Z := 2147483647%Z.

(** A position given by its rows, written as strings. *)
Definition position_of (rows : list string) (w : Who) : DomineeringState :=
  let grid := String.list_ascii_of_string <$> rows in
  mkState (Z.of_nat (length grid))
          (Z.of_nat (length (default [] (head grid))))
          grid w.

(** An engine that has not searched yet, whose root is to be moved by [w]. *)
Definition fresh_searcher (w : Who) : Searcher :=
  mkSearcher (mkNode w 0 (mkLocation 0 0 0 0) 0 true false) [] ∅.

(** The score and the terminal flag of the node a search returns, and those
    of every entry of the table it leaves. *)
Definition score_and_table (r : outcome (Node * Searcher))
  : option (Z * bool * list (Z * bool)) :=
  match r with
  | Done (n, s) =>
      Some (score n, is_terminal n,
            (λ m, (score m, is_terminal m)) <$> best_moves s)
  | _ => None
  end.

(** Two positions with Away to move after a first move of Home. *)
Definition pos_2x3 := position_of ["..."; ".WW"]%string AWAY.
Definition pos_2x4 := position_of ["WW.."; "...."]%string AWAY.

(** The position of a 3x3 game after two moves, and an engine whose cache
    holds an ordering for it. *)
Definition pos_3x3 := position_of ["WWB"; "..B"; "..."]%string HOME.
Definition cached_engine : Searcher :=
  mkSearcher (root (fresh_searcher HOME)) []
    {[ pos_3x3 := [set_score 2 (Node_new AWAY 3 (mkLocation 1 0 1 1));
                   set_score 0 (Node_new AWAY 3 (mkLocation 2 1 2 2))] ]}.

(** ** Vocabulary of the properties *)

(** The cell of the grid at a coordinate, when there is one. *)
Definition cell (r c : Z) (s : DomineeringState) : option ascii :=
  if in_board r c s then board s !! Z.to_nat r ≫= (.!! Z.to_nat c) else None.

(** A coordinate of the board. *)
Definition on_board (s : DomineeringState) (r c : Z) : Prop :=
  (0 ≤ r < ROWS s)%Z ∧ (0 ≤ c < COLS s)%Z.

(** What [clear_marks] makes of a cell. *)
Definition unmark (ch : ascii) : ascii :=
  if decide (ch = MARKEDSYM) then EMPTYSYM else ch.

(** Same dimensions and same side to move. *)
Definition same_frame (s s' : DomineeringState) : Prop :=
  ROWS s' = ROWS s ∧ COLS s' = COLS s ∧ who s' = who s.

(** The grid is a rectangle of [ROWS] rows of [COLS] cells. *)
Definition wf_state (s : DomineeringState) : Prop :=
  length (board s) = Z.to_nat (ROWS s) ∧
  Forall (λ row, length row = Z.to_nat (COLS s)) (board s).

(** No cell of the grid carries the mark. *)
Definition no_marks (s : DomineeringState) : Prop :=
  Forall (Forall (λ ch, ch ≠ MARKEDSYM)) (board s).

(** No cell reads as marked. *)
Definition mark_free (s : DomineeringState) : Prop :=
  ∀ r c, getCell r c s ≠ MARKEDSYM.

(** [s'] is [s] with marks on some of its empty cells. *)
Definition marked_over (s s' : DomineeringState) : Prop :=
  same_frame s s' ∧ wf_state s' ∧
  ∀ r c, getCell r c s' = getCell r c s ∨
         (getCell r c s = EMPTYSYM ∧ getCell r c s' = MARKEDSYM).

(** The placement the move generator tries at a first cell for a side. *)
Definition placement_at (t : Who) (r1 c1 : Z) : Location :=
  match t with
  | HOME => mkLocation r1 c1 r1 (c1 + 1)
  | AWAY => mkLocation r1 c1 (r1 + 1) c1
  end.

(** The candidate placements of a side, row-major by the first cell. *)
Definition placements (t : Who) (state : DomineeringState) : list Location :=
  r ← seqZ 0 (ROWS state); c ← seqZ 0 (COLS state); [placement_at t r c].

(** The side a placement has the orientation of. *)
Definition orientation_side (m : Location) : Who :=
  if bool_decide (r2 m = r1 m) then HOME else AWAY.

(** The cells of a node's placement are both empty in a position. *)
Definition cells_empty (state : DomineeringState) (node : Node) : Prop :=
  getCell (r1 (parent_move node)) (c1 (parent_move node)) state = EMPTYSYM ∧
  getCell (r2 (parent_move node)) (c2 (parent_move node)) state = EMPTYSYM.

(** Every cached node is a child of a node at depth 2. *)
Definition cache_wf (s : Searcher) : Prop :=
  map_Forall (λ _ moves, Forall (λ n, depth n = 3) moves) (ordered_moves s).

(** ** Vocabulary of the further properties *)

(** The number of cells of the grid that hold a symbol. *)
Definition count_cells (sym : ascii) (s : DomineeringState) : nat :=
  sum_list ((λ row, length (filter (λ ch, ch = sym) row)) <$> board s).

(** The cells a domino can still go on once the marks are cleared. *)
Definition free_cells (s : DomineeringState) : nat :=
  count_cells EMPTYSYM s + count_cells MARKEDSYM s.

(** ** Counting cells *)



Definition indicator (P : Prop) `{Decision P} : nat := if decide P then 1 else 0.

(** What a counting pass keeps: the count is the number of pairs of empty
    cells it has turned into marks. *)
Definition pass_accounts (s0 : DomineeringState) (p : Z * DomineeringState)
  : Prop :=
  (0 ≤ p.1)%Z ∧
  (2 * p.1 + Z.of_nat (count_cells EMPTYSYM p.2)
     = Z.of_nat (count_cells EMPTYSYM s0))%Z ∧
  (Z.of_nat (count_cells MARKEDSYM p.2)
     = Z.of_nat (count_cells MARKEDSYM s0) + 2 * p.1)%Z.

(** ** The older revision of the move generator *)

Module Legacy.

(** [Searcher::expand] of the older revision: the side to move is read off
    the position ([state.getWho()]); it fixes the orientation and is the tag
    of the children. *)
Definition expand (moveOK : DomineeringState → Location → bool)
    (parent : Node) (state : DomineeringState) : list Node :=
  let my_team := who state in
  let my_depth := depth parent + 1 in
  for_rows_cols state
    (λ r1 c1 children,
       let r2 := match my_team with HOME => r1 | AWAY => (r1 + 1)%Z end in
       let c2 := match my_team with HOME => (c1 + 1)%Z | AWAY => c1 end in
       let my_move := mkLocation r1 c1 r2 c2 in
       if moveOK state my_move
       then children ++ [Node_new my_team my_depth my_move]
       else children)
    [].

(** [Searcher::tap] of the older revision: the cells take the symbol of the
    node's own team. *)
Definition tap (node : Node) (state : DomineeringState) : DomineeringState :=
  let c := match team node with HOME => HOMESYM | AWAY => AWAYSYM end in
  setCell (r2 (parent_move node)) (c2 (parent_move node)) c
    (setCell (r1 (parent_move node)) (c1 (parent_move node)) c state).

End Legacy.

(** The same node with the tag of the other side. *)
Definition retag (n : Node) : Node :=
  mkNode (toggle (team n)) (depth n) (parent_move n) (score n) (is_unset n)
         (is_terminal n).

(** The choice the loop of [search_under] makes among scored children: a
    child replaces the current best when its value is strictly better for
    the side of the node. *)
Fixpoint pick_best (t : Who) (value : Node → Z) (current_best : Node)
    (children : list Node) : Node :=
  match children with
  | [] => current_best
  | child :: rest =>
      let result := value child in
      if match t with
         | HOME => bool_decide (score current_best < result)%Z
         | AWAY => bool_decide (result < score current_best)%Z
         end
      then pick_best t value (set_score result child) rest
      else pick_best t value current_best rest
  end.

(** The static value of the position a child leads to. *)
Definition child_value (state : DomineeringState) (child : Node) : Z :=
  evaluate (tap child (togglePlayer state)).

(** The window of a node whose side has only raised or lowered its own
    bound: the bound that prunes is still the sentinel. *)
Definition open_window (NEG_INF POS_INF : Z) (t : Who) (ab : AlphaBeta)
  : Prop :=
  match t with HOME => beta ab = POS_INF | AWAY => alpha ab = NEG_INF end.

(** The position with another side to move. *)
Definition with_who (w : Who) (s : DomineeringState) : DomineeringState :=
  mkState (ROWS s) (COLS s) (board s) w.

(** Two runs of a pass that differ in the side to move only. *)
Definition same_but_who (w : Who) (p q : Z * DomineeringState) : Prop :=
  p.1 = q.1 ∧ p.2 = with_who w q.2.

(** No cached ordering is empty. *)
Definition orderings_inhabited (s : Searcher) : Prop :=
  map_Forall (λ _ moves, moves ≠ []) (ordered_moves s).

(** ** The scoring passes in the words of the design

    Following the spec's words: a pass counts pairs of cells of the
    orientation of one side, in the order of its scan; the cells of a
    counted pair are marked on the scratch position, which keeps them out
    of every pair counted later.  A pair is open when its two cells are
    empty cells of the board.  It is reserved when, besides, the four cells
    that flank it are not empty cells: they are filled, marked, or beyond
    the edge of the board.  The flanks of a horizontal pair are the cells
    above and below it, those of a vertical pair the cells to its left and
    right. *)
Definition empty_at (s : DomineeringState) (r c : Z) : bool :=
  bool_decide (cell r c s = Some EMPTYSYM).

Definition open_pair (t : Who) (s : DomineeringState) (r c : Z) : bool :=
  let m := placement_at t r c in
  empty_at s (r1 m) (c1 m) && empty_at s (r2 m) (c2 m).

Definition flanks (t : Who) (r c : Z) : list (Z * Z) :=
  match t with
  | HOME => [(r + 1, c); (r + 1, c + 1); (r - 1, c); (r - 1, c + 1)]%Z
  | AWAY => [(r, c - 1); (r + 1, c - 1); (r, c + 1); (r + 1, c + 1)]%Z
  end.

Definition reserved_pair (t : Who) (s : DomineeringState) (r c : Z) : bool :=
  open_pair t s r c &&
  forallb (λ f, negb (empty_at s f.1 f.2)) (flanks t r c).

Definition mark_pair (t : Who) (r c : Z) (s : DomineeringState)
  : DomineeringState :=
  let m := placement_at t r c in
  setCell (r2 m) (c2 m) MARKEDSYM (setCell (r1 m) (c1 m) MARKEDSYM s).

(** The pairs a scan counts, by their first cells in the order of the scan,
    and the scratch position the scan leaves. *)
Fixpoint count_pairs (counts : DomineeringState → Z → Z → bool) (t : Who)
    (firsts : list (Z * Z)) (scratch : DomineeringState)
  : Z * DomineeringState :=
  match firsts with
  | [] => (0%Z, scratch)
  | (r, c) :: rest =>
      if counts scratch r c
      then let later := count_pairs counts t rest (mark_pair t r c scratch) in
           ((1 + later.1)%Z, later.2)
      else count_pairs counts t rest scratch
  end.

Definition row_major (s : DomineeringState) : list (Z * Z) :=
  r ← seqZ 0 (ROWS s); c ← seqZ 0 (COLS s); [(r, c)].

Definition column_major (s : DomineeringState) : list (Z * Z) :=
  c ← seqZ 0 (COLS s); r ← seqZ 0 (ROWS s); [(r, c)].

(** The four counts of the canonical scoring set: reserved pairs of Home
    row by row, then the open pairs of Home that are left, column by
    column; the same for Away, column by column. *)
Definition home_reserved_pairs (s : DomineeringState) :=
  count_pairs (reserved_pair HOME) HOME (row_major s) s.
Definition home_open_pairs (s : DomineeringState) :=
  count_pairs (open_pair HOME) HOME (column_major s) s.
Definition away_reserved_pairs (s : DomineeringState) :=
  count_pairs (reserved_pair AWAY) AWAY (column_major s) s.
Definition away_open_pairs (s : DomineeringState) :=
  count_pairs (open_pair AWAY) AWAY (column_major s) s.

(** What a run of the recursion leaves in the table of best moves, and what
    a run of its loop leaves in the table and in the local position. *)
Definition table_of (r : outcome Searcher) : outcome (list Node) :=
  match r with
  | Done s => Done (best_moves s)
  | Fault => Fault
  | OutOfFuel => OutOfFuel
  end.

Definition loop_table_of (r : outcome (Searcher * DomineeringState))
  : outcome (list Node * DomineeringState) :=
  match r with
  | Done (s, next_state) => Done (best_moves s, next_state)
  | Fault => Fault
  | OutOfFuel => OutOfFuel
  end.

(** * Properties *)

(** ** Cell writes *)

Lemma in_board_setCell r c sym r' c' s :
  in_board r' c' (setCell r c sym s) = in_board r' c' s.
Proof. unfold setCell. by destruct (in_board r c s). Qed.

Lemma in_board_nonneg r c s : in_board r c s = true → (0 ≤ r)%Z ∧ (0 ≤ c)%Z.
Proof.
  unfold in_board. rewrite !andb_true_iff, !bool_decide_eq_true. tauto.
Qed.

(** A cell that reads as a symbol is a cell of the grid. *)
Lemma getCell_lookup r c s sym :
  sym ≠ "000"%char →
  getCell r c s = sym →
  in_board r c s = true ∧
  ∃ row, board s !! Z.to_nat r = Some row ∧ row !! Z.to_nat c = Some sym.
Proof.
  unfold getCell. intros Hne H. destruct (in_board r c s); [|congruence].
  split; [done|].
  destruct (board s !! Z.to_nat r) as [row|] eqn:Hr; simpl in H; [|congruence].
  exists row. split; [done|].
  destruct (row !! Z.to_nat c); simpl in H; congruence.
Qed.

Lemma setCell_id r c s sym :
  sym ≠ "000"%char → getCell r c s = sym → setCell r c sym s = s.
Proof.
  intros Hne H.
  destruct (getCell_lookup _ _ _ _ Hne H) as (Hin & row & Hr & Hc).
  unfold setCell. rewrite Hin. destruct s as [R C b w]; simpl in *. f_equal.
  apply list_eq. intros i. rewrite list_lookup_alter.
  destruct (decide (Z.to_nat r = i)) as [<-|]; [|done].
  rewrite Hr. simpl. by rewrite list_insert_id.
Qed.

Lemma setCell_setCell r c a b s :
  setCell r c a (setCell r c b s) = setCell r c a s.
Proof.
  unfold setCell at 1. rewrite in_board_setCell. unfold setCell.
  destruct (in_board r c s); [|done]. simpl. f_equal.
  rewrite list_alter_alter_eq. apply list_alter_ext; [|done].
  intros row _. simpl. by rewrite list_insert_insert_eq.
Qed.

Lemma setCell_comm r c a r' c' b s :
  (r, c) ≠ (r', c') →
  setCell r c a (setCell r' c' b s) = setCell r' c' b (setCell r c a s).
Proof.
  intros Hne. unfold setCell at 1 3. rewrite !in_board_setCell.
  unfold setCell.
  destruct (in_board r c s) eqn:H1, (in_board r' c' s) eqn:H2; simpl;
    rewrite ?H1, ?H2; try done.
  apply in_board_nonneg in H1, H2. f_equal.
  destruct (decide (r = r')) as [->|Hr].
  - rewrite !list_alter_alter_eq. apply list_alter_ext; [|done].
    intros row _. simpl. apply list_insert_insert_ne.
    intros E. apply Hne. f_equal. lia.
  - apply list_alter_alter_ne. lia.
Qed.

Lemma EMPTYSYM_not_NUL : EMPTYSYM ≠ "000"%char.
Proof. done. Qed.

(** Placing a node on two empty cells and taking it off again. *)
Lemma untap_tap node state :
  getCell (r1 (parent_move node)) (c1 (parent_move node)) state = EMPTYSYM →
  getCell (r2 (parent_move node)) (c2 (parent_move node)) state = EMPTYSYM →
  untap node (tap node state) = state.
Proof.
  intros E1 E2. unfold untap, tap.
  set (sym := match team node with HOME => AWAYSYM | AWAY => HOMESYM end).
  destruct (parent_move node) as [a b c d]; simpl in *.
  destruct (decide ((a, b) = (c, d))) as [[= -> ->]|Hne].
  - rewrite !setCell_setCell. by apply setCell_id.
  - rewrite (setCell_comm a b EMPTYSYM c d sym) by done.
    rewrite !setCell_setCell.
    rewrite (setCell_id a b state EMPTYSYM) by done.
    by apply setCell_id.
Qed.

Lemma getCell_cell r c s : getCell r c s = default "000"%char (cell r c s).
Proof. unfold getCell, cell. by destruct (in_board r c s). Qed.

Lemma cell_setCell r c r' c' sym s :
  cell r c (setCell r' c' sym s) =
  if decide ((r, c) = (r', c')) then (λ _, sym) <$> cell r c s else cell r c s.
Proof.
  unfold cell. rewrite in_board_setCell. unfold setCell.
  destruct (decide ((r, c) = (r', c'))) as [[= <- <-]|Hne].
  - destruct (in_board r c s); [|done]. simpl.
    rewrite list_lookup_alter_eq.
    destruct (board s !! Z.to_nat r) as [row|]; [|done]. simpl.
    destruct (row !! Z.to_nat c) eqn:E.
    + apply list_lookup_insert_eq. by eapply lookup_lt_Some.
    + simpl. apply lookup_ge_None. rewrite length_insert.
      by apply lookup_ge_None.
  - destruct (in_board r c s) eqn:H1; [|by destruct (in_board r' c' s)].
    destruct (in_board r' c' s) eqn:H2; [|done]. simpl.
    apply in_board_nonneg in H1, H2.
    destruct (decide (r = r')) as [->|Hr].
    + rewrite list_lookup_alter_eq.
      destruct (board s !! Z.to_nat r'); [|done]. simpl.
      apply list_lookup_insert_ne. intros E. apply Hne. f_equal. lia.
    + rewrite list_lookup_alter_ne; [done|lia].
Qed.

Lemma getCell_setCell r c r' c' sym s :
  getCell r c (setCell r' c' sym s) =
  if decide ((r, c) = (r', c'))
  then match cell r c s with Some _ => sym | None => "000"%char end
  else getCell r c s.
Proof.
  rewrite !getCell_cell, cell_setCell.
  destruct (decide _); [|done]. by destruct (cell r c s).
Qed.

(** ** Loops *)

Lemma foldl_invariant {A B} (f : A → B → A) (Inv : A → Prop) (P : B → Prop)
    (l : list B) (a : A) :
  Inv a → Forall P l → (∀ a b, P b → Inv a → Inv (f a b)) →
  Inv (foldl f a l).
Proof.
  intros Ha Hl Hstep. revert a Ha.
  induction Hl as [|b l Hb _ IH]; intros a Ha; simpl; [done|].
  apply IH. by apply Hstep.
Qed.

Lemma foldl_visit {A B} (f : A → B → A) (Q : A → Prop) (P : B → Prop)
    (b : B) (l : list B) (a : A) :
  b ∈ l → Forall P l →
  (∀ a, Q (f a b)) → (∀ a b', P b' → Q a → Q (f a b')) →
  Q (foldl f a l).
Proof.
  intros Hb Hl Hest Hpres. revert a.
  induction Hl as [|b' l Hb' Hl IH]; intros a; simpl.
  { by apply elem_of_nil in Hb. }
  apply elem_of_cons in Hb as [<-|Hb].
  - apply (foldl_invariant f Q P); auto.
  - by apply IH.
Qed.

Lemma seqZ_range n : Forall (λ i, 0 ≤ i < n)%Z (seqZ 0 n).
Proof. apply Forall_seqZ. intros; lia. Qed.

Lemma for_rows_cols_invariant {A} s (body : Z → Z → A → A) (Inv : A → Prop) a :
  Inv a →
  (∀ r c a, on_board s r c → Inv a → Inv (body r c a)) →
  Inv (for_rows_cols s body a).
Proof.
  intros Ha Hstep. unfold for_rows_cols.
  eapply (foldl_invariant _ Inv); [done|apply seqZ_range|].
  intros a' r Hr Ha'. simpl.
  eapply (foldl_invariant _ Inv); [done|apply seqZ_range|].
  intros a'' c Hc Ha''. simpl. by apply Hstep.
Qed.

Lemma for_cols_rows_invariant {A} s (body : Z → Z → A → A) (Inv : A → Prop) a :
  Inv a →
  (∀ r c a, on_board s r c → Inv a → Inv (body r c a)) →
  Inv (for_cols_rows s body a).
Proof.
  intros Ha Hstep. unfold for_cols_rows.
  eapply (foldl_invariant _ Inv); [done|apply seqZ_range|].
  intros a' c Hc Ha'. simpl.
  eapply (foldl_invariant _ Inv); [done|apply seqZ_range|].
  intros a'' r Hr Ha''. simpl. by apply Hstep.
Qed.

(** What the turn of the scan at a cell establishes, and no other turn
    destroys, holds when the scan is over. *)
Lemma for_rows_cols_visit {A} s (body : Z → Z → A → A) (Q : A → Prop) r c a :
  on_board s r c →
  (∀ a, Q (body r c a)) →
  (∀ r' c' a, on_board s r' c' → Q a → Q (body r' c' a)) →
  Q (for_rows_cols s body a).
Proof.
  intros [Hr Hc] Hest Hpres. unfold for_rows_cols.
  apply (foldl_visit _ Q (λ i, 0 ≤ i < ROWS s)%Z r);
    [apply elem_of_seqZ; lia|apply seqZ_range|..].
  - intros a'. simpl.
    apply (foldl_visit _ Q (λ i, 0 ≤ i < COLS s)%Z c);
      [apply elem_of_seqZ; lia|apply seqZ_range|done|].
    intros a'' c' Hc' Ha''. simpl. by apply Hpres.
  - intros a' r' Hr' Ha'. simpl.
    eapply (foldl_invariant _ Q); [done|apply seqZ_range|].
    intros a'' c' Hc' Ha''. simpl. by apply Hpres.
Qed.

(** ** Marks *)

Lemma same_frame_setCell r c sym s : same_frame s (setCell r c sym s).
Proof. unfold setCell, same_frame. by destruct (in_board r c s). Qed.

Lemma same_frame_trans s1 s2 s3 :
  same_frame s1 s2 → same_frame s2 s3 → same_frame s1 s3.
Proof. unfold same_frame. intros (?&?&?) (?&?&?). repeat split; congruence. Qed.

Lemma same_frame_mark r c s : same_frame s (Evaluator.mark r c s).
Proof.
  unfold Evaluator.mark. case_bool_decide; [done|apply same_frame_setCell].
Qed.

Lemma in_board_frame r c s s' :
  same_frame s s' → in_board r c s' = in_board r c s.
Proof. intros (HR & HC & _). unfold in_board. by rewrite HR, HC. Qed.

Lemma getCell_off_board r c s : in_board r c s = false → getCell r c s = "000"%char.
Proof. unfold getCell. by intros ->. Qed.

Lemma in_board_on_board r c s : in_board r c s = true ↔ on_board s r c.
Proof.
  unfold in_board, on_board.
  rewrite !andb_true_iff, !bool_decide_eq_true. tauto.
Qed.

Lemma clear_marks_frame s : same_frame s (Evaluator.clear_marks s).
Proof.
  unfold Evaluator.clear_marks.
  apply (for_rows_cols_invariant s _ (same_frame s)); [done|].
  intros r c st _ Hst. case_bool_decide; [|done].
  eapply same_frame_trans; [done|apply same_frame_setCell].
Qed.

(** No mark is left after [clear_marks]. *)
Lemma clear_marks_no_marks s r c :
  getCell r c (Evaluator.clear_marks s) ≠ MARKEDSYM.
Proof.
  destruct (in_board r c s) eqn:Hin.
  - apply in_board_on_board in Hin. unfold Evaluator.clear_marks.
    apply (for_rows_cols_visit s _ (λ st, getCell r c st ≠ MARKEDSYM) r c);
      [done|..].
    + intros st. case_bool_decide as Hm; [|done].
      rewrite getCell_setCell. rewrite decide_True by done.
      by destruct (cell r c st).
    + intros r' c' st _ Hst. case_bool_decide as Hm; [|done].
      rewrite getCell_setCell. destruct (decide _); [|done].
      by destruct (cell r c st).
  - rewrite getCell_off_board; [done|].
    by rewrite (in_board_frame _ _ s) by apply clear_marks_frame.
Qed.

Lemma unmark_not_mark ch : unmark ch ≠ MARKEDSYM.
Proof. unfold unmark. by destruct (decide _). Qed.

(** [clear_marks] reverts the marked cells and touches no other. *)
Lemma clear_marks_cells s r c :
  getCell r c (Evaluator.clear_marks s) = unmark (getCell r c s).
Proof.
  assert (getCell r c (Evaluator.clear_marks s) = getCell r c s ∨
          getCell r c (Evaluator.clear_marks s) = unmark (getCell r c s))
    as [H|H]; [|..|done].
  - unfold Evaluator.clear_marks.
    apply (for_rows_cols_invariant s _
             (λ st, getCell r c st = getCell r c s ∨
                    getCell r c st = unmark (getCell r c s))); [by left|].
    intros r' c' st _ Hst. case_bool_decide as Hm; [|done].
    rewrite getCell_setCell. destruct (decide _) as [[= <- <-]|]; [|done].
    rewrite getCell_cell in Hm. destruct (cell r c st) eqn:Ec; [|done].
    simpl in Hm. subst. right. destruct Hst as [Hst|Hst].
    + rewrite <- Hst, getCell_cell, Ec. simpl.
      unfold unmark. by rewrite decide_True.
    + rewrite getCell_cell, Ec in Hst. simpl in Hst.
      by destruct (unmark_not_mark (getCell r c s)).
  - pose proof (clear_marks_no_marks s r c) as Hn. rewrite H in Hn.
    unfold unmark. by rewrite decide_False.
Qed.

(** ** Well-formed grids and extensionality *)

Lemma wf_setCell r c sym s : wf_state s → wf_state (setCell r c sym s).
Proof.
  intros [Hl Hrows]. unfold setCell. destruct (in_board r c s); [|done].
  split; simpl.
  - by rewrite length_alter.
  - apply Forall_alter; [done|]. intros row _ Hrow. by rewrite length_insert.
Qed.

Lemma cell_wf r c s : wf_state s → in_board r c s = true → is_Some (cell r c s).
Proof.
  intros [Hl Hrows] Hin. unfold cell. rewrite Hin.
  apply in_board_on_board in Hin as [Hr Hc].
  destruct (lookup_lt_is_Some_2 (board s) (Z.to_nat r)) as [row Hrow]; [lia|].
  rewrite Hrow. simpl. apply lookup_lt_is_Some_2.
  rewrite Forall_lookup in Hrows. rewrite (Hrows _ _ Hrow). lia.
Qed.

Lemma state_ext s s' :
  wf_state s → wf_state s' → same_frame s s' →
  (∀ r c, getCell r c s' = getCell r c s) → s' = s.
Proof.
  intros Hwf Hwf' (HR & HC & Hw) Hcells.
  assert (∀ r c, cell r c s' = cell r c s) as Hcell.
  { intros r c. destruct (in_board r c s) eqn:Hin.
    - destruct (cell_wf r c s Hwf Hin) as [x Hx].
      assert (in_board r c s' = true) as Hin'
        by by rewrite (in_board_frame _ _ s).
      destruct (cell_wf r c s' Hwf' Hin') as [x' Hx'].
      specialize (Hcells r c). rewrite !getCell_cell, Hx, Hx' in Hcells.
      simpl in Hcells. congruence.
    - unfold cell. rewrite (in_board_frame _ _ s) by done. by rewrite Hin. }
  destruct Hwf as [Hl Hrows], Hwf' as [Hl' Hrows'].
  destruct s as [R C b w], s' as [R' C' b' w']; simpl in *. subst. f_equal.
  apply list_eq_same_length with (Z.to_nat R); [done..|].
  intros i row row' Hi Hrow' Hrow.
  rewrite Forall_lookup in Hrows, Hrows'.
  apply list_eq_same_length with (Z.to_nat C); [eauto..|].
  intros j x x' Hj Hx' Hx.
  specialize (Hcell (Z.of_nat i) (Z.of_nat j)). unfold cell, in_board in Hcell.
  simpl in Hcell. rewrite !Nat2Z.id, Hrow, Hrow' in Hcell. simpl in Hcell.
  rewrite Hx, Hx' in Hcell.
  rewrite !bool_decide_eq_true_2 in Hcell by lia. simpl in Hcell. congruence.
Qed.

Lemma wf_mark r c s : wf_state s → wf_state (Evaluator.mark r c s).
Proof.
  intros Hwf. unfold Evaluator.mark. case_bool_decide; [done|].
  by apply wf_setCell.
Qed.

Lemma wf_clear_marks s : wf_state s → wf_state (Evaluator.clear_marks s).
Proof.
  intros Hwf. unfold Evaluator.clear_marks.
  apply (for_rows_cols_invariant s _ wf_state); [done|].
  intros r c st _ Hst. case_bool_decide; [|done]. by apply wf_setCell.
Qed.

Lemma no_marks_mark_free s : no_marks s → mark_free s.
Proof.
  intros Hs r c. rewrite getCell_cell. unfold cell.
  destruct (in_board r c s); [|done].
  destruct (board s !! Z.to_nat r) as [row|] eqn:Hrow; [|done]. simpl.
  destruct (row !! Z.to_nat c) as [ch|] eqn:Hch; [|done]. simpl.
  unfold no_marks in Hs. rewrite Forall_lookup in Hs.
  specialize (Hs _ _ Hrow). rewrite Forall_lookup in Hs. by eapply Hs.
Qed.

Lemma marked_over_refl s : wf_state s → marked_over s s.
Proof. intros Hwf. split; [done|split; [done|by left]]. Qed.

Lemma marked_over_mark s s' r c :
  marked_over s s' → marked_over s (Evaluator.mark r c s').
Proof.
  intros (Hf & Hwf & Hcells). split; [|split].
  - eapply same_frame_trans; [done|apply same_frame_mark].
  - by apply wf_mark.
  - intros r' c'. unfold Evaluator.mark. case_bool_decide as He; [done|].
    rewrite getCell_setCell. destruct (decide _) as [[= -> ->]|]; [|done].
    right. destruct (Hcells r c) as [Hc|[_ Hc]]; [|by rewrite He in Hc].
    split; [congruence|].
    rewrite getCell_cell in He. by destruct (cell r c s').
Qed.

(** Every scoring pass only adds marks to the scratch position. *)
Ltac pass_marks lem :=
  let H0 := fresh in
  intros H0;
  apply (lem _ _ _ (λ p, marked_over _ p.2)); [done|];
  intros ? ? [? ?] _ ?; simpl in *;
  match goal with |- context [if ?b then _ else _] => destruct b end;
  [simpl; by do 2 apply marked_over_mark|done].

Lemma marked_over_EvalHomeReserved s s0 :
  marked_over s s0 → marked_over s (EvalHomeReserved s0).2.
Proof. pass_marks @for_rows_cols_invariant. Qed.

Lemma marked_over_EvalHomeOpen s s0 :
  marked_over s s0 → marked_over s (EvalHomeOpen s0).2.
Proof. pass_marks @for_cols_rows_invariant. Qed.

Lemma marked_over_EvalAwayReserved s s0 :
  marked_over s s0 → marked_over s (EvalAwayReserved s0).2.
Proof. pass_marks @for_cols_rows_invariant. Qed.

Lemma marked_over_EvalAwayOpen s s0 :
  marked_over s s0 → marked_over s (EvalAwayOpen s0).2.
Proof. pass_marks @for_cols_rows_invariant. Qed.

(** Clearing the marks of a scratch position gives back the position it was
    copied from. *)
Lemma clear_marks_restores s s' :
  wf_state s → no_marks s → marked_over s s' →
  Evaluator.clear_marks s' = s.
Proof.
  intros Hwf Hno (Hf & Hwf' & Hcells).
  apply state_ext; [done|by apply wf_clear_marks|..].
  - eapply same_frame_trans; [done|apply clear_marks_frame].
  - intros r c. rewrite clear_marks_cells. unfold unmark.
    destruct (Hcells r c) as [->|[-> ->]].
    + rewrite decide_False; [done|]. by apply no_marks_mark_free.
    + by rewrite decide_True.
Qed.

Lemma grid_empty_getCell r c s :
  Evaluator.grid_empty r c s = bool_decide (getCell r c s = EMPTYSYM).
Proof.
  unfold Evaluator.grid_empty.
  destruct (in_board r c s) eqn:Hin.
  - apply in_board_on_board in Hin as [Hr Hc].
    by rewrite !bool_decide_eq_false_2 by lia.
  - rewrite (getCell_off_board _ _ _ Hin).
    rewrite (bool_decide_eq_false_2 (_ = EMPTYSYM)) by done.
    unfold in_board in Hin.
    repeat case_bool_decide; simpl in *; try done; lia.
Qed.

(** ** The scoring passes against their description *)

Lemma getCell_empty_cell r c s :
  getCell r c s = EMPTYSYM ↔ cell r c s = Some EMPTYSYM.
Proof.
  rewrite getCell_cell. destruct (cell r c s) as [ch|]; simpl.
  - split; congruence.
  - split; [|done]. intros H. by destruct EMPTYSYM_not_NUL.
Qed.

Lemma grid_empty_empty_at r c s : Evaluator.grid_empty r c s = empty_at s r c.
Proof.
  rewrite grid_empty_getCell. unfold empty_at.
  apply bool_decide_ext, getCell_empty_cell.
Qed.

Lemma placable_open_pair t r c s :
  Evaluator.placable r c (r2 (placement_at t r c)) (c2 (placement_at t r c)) s
  = open_pair t s r c.
Proof.
  unfold Evaluator.placable, open_pair.
  rewrite !grid_empty_empty_at. by destruct t.
Qed.

Lemma reserved_for_home_reserved_pair r c s :
  Evaluator.reserved_for_home r c r (c + 1) s = reserved_pair HOME s r c.
Proof.
  unfold Evaluator.reserved_for_home, reserved_pair.
  rewrite (placable_open_pair HOME), !grid_empty_empty_at.
  cbn [flanks forallb fst snd].
  destruct (open_pair HOME s r c); [|done]. cbn [negb andb].
  by repeat match goal with
            | |- context [empty_at ?s0 ?a ?b] => destruct (empty_at s0 a b)
            end.
Qed.

Lemma reserved_for_away_reserved_pair r c s :
  Evaluator.reserved_for_away r c (r + 1) c s = reserved_pair AWAY s r c.
Proof.
  unfold Evaluator.reserved_for_away, reserved_pair.
  rewrite (placable_open_pair AWAY), !grid_empty_empty_at.
  cbn [flanks forallb fst snd].
  destruct (open_pair AWAY s r c); [|done]. cbn [negb andb].
  by repeat match goal with
            | |- context [empty_at ?s0 ?a ?b] => destruct (empty_at s0 a b)
            end.
Qed.

(** Marking the two cells of an open pair writes the mark on both. *)
Lemma mark_open_pair t r c s :
  open_pair t s r c = true →
  Evaluator.mark (r2 (placement_at t r c)) (c2 (placement_at t r c))
    (Evaluator.mark r c s) = mark_pair t r c s.
Proof.
  unfold open_pair, mark_pair, empty_at.
  set (m := placement_at t r c).
  assert (r1 m = r ∧ c1 m = c ∧ (r2 m, c2 m) ≠ (r, c)) as (-> & -> & Hne).
  { subst m. destruct t; simpl; (split; [done|]); (split; [done|]);
      intros [=]; lia. }
  rewrite andb_true_iff, !bool_decide_eq_true. intros [H1 H2].
  unfold Evaluator.mark.
  rewrite (bool_decide_eq_false_2 (getCell r c s ≠ EMPTYSYM))
    by (intros H; by apply H, getCell_empty_cell).
  rewrite bool_decide_eq_false_2; [done|].
  intros H. apply H, getCell_empty_cell.
  by rewrite cell_setCell, decide_False.
Qed.

(** The nested loops visit the first cells in the order of the scans. *)
Lemma for_rows_cols_row_major {A} s (body : Z → Z → A → A) init :
  for_rows_cols s body init =
  foldl (λ acc p, body p.1 p.2 acc) init (row_major s).
Proof.
  unfold for_rows_cols, row_major.
  generalize (seqZ 0 (ROWS s)) as rows. intros rows. revert init.
  induction rows as [|r rows IH]; intros init; [done|].
  cbn [foldl mbind list_bind]. rewrite foldl_app, IH. f_equal.
  generalize (seqZ 0 (COLS s)) as cols. intros cols. revert init.
  induction cols as [|c cols IHc]; intros init; [done|].
  cbn [foldl mbind list_bind app]. by rewrite IHc.
Qed.

Lemma for_cols_rows_column_major {A} s (body : Z → Z → A → A) init :
  for_cols_rows s body init =
  foldl (λ acc p, body p.1 p.2 acc) init (column_major s).
Proof.
  unfold for_cols_rows, column_major.
  generalize (seqZ 0 (COLS s)) as cols. intros cols. revert init.
  induction cols as [|c cols IH]; intros init; [done|].
  cbn [foldl mbind list_bind]. rewrite foldl_app, IH. f_equal.
  generalize (seqZ 0 (ROWS s)) as rows. intros rows. revert init.
  induction rows as [|r rows IHr]; intros init; [done|].
  cbn [foldl mbind list_bind app]. by rewrite IHr.
Qed.

(** A loop that counts and marks the pairs its test accepts computes the
    count of the description. *)
Lemma count_loop (test : Z → Z → DomineeringState → bool)
    (marks : Z → Z → DomineeringState → DomineeringState)
    counts t firsts n0 st0 :
  (∀ r c st, test r c st = counts st r c) →
  (∀ r c st, counts st r c = true → marks r c st = mark_pair t r c st) →
  foldl (λ acc p,
           (λ r c '(n, st),
              if test r c st then ((n + 1)%Z, marks r c st) else (n, st))
             p.1 p.2 acc)
        (n0, st0) firsts
  = ((n0 + (count_pairs counts t firsts st0).1)%Z,
     (count_pairs counts t firsts st0).2).
Proof.
  intros Htest Hmarks. revert n0 st0.
  induction firsts as [|[r c] rest IH]; intros n0 st0; cbn [foldl count_pairs].
  { cbn [fst snd]. f_equal. lia. }
  cbn [fst snd]. rewrite Htest.
  destruct (counts st0 r c) eqn:Hc.
  - rewrite Hmarks by done. rewrite IH. cbn [fst snd]. f_equal. lia.
  - apply IH.
Qed.

Lemma EvalHomeReserved_counts s : EvalHomeReserved s = home_reserved_pairs s.
Proof.
  unfold EvalHomeReserved, home_reserved_pairs.
  rewrite for_rows_cols_row_major.
  etrans; [apply (count_loop
                    (λ r c st, Evaluator.reserved_for_home r c r (c + 1) st)
                    (λ r c st, Evaluator.mark r (c + 1) (Evaluator.mark r c st))
                    (reserved_pair HOME) HOME)|].
  - intros r c st. apply reserved_for_home_reserved_pair.
  - intros r c st H. apply (mark_open_pair HOME).
    unfold reserved_pair in H. by apply andb_true_iff in H as [H _].
  - by destruct (count_pairs _ _ _ _).
Qed.

Lemma EvalHomeOpen_counts s : EvalHomeOpen s = home_open_pairs s.
Proof.
  unfold EvalHomeOpen, home_open_pairs.
  rewrite for_cols_rows_column_major.
  etrans; [apply (count_loop
                    (λ r c st, Evaluator.placable r c r (c + 1) st)
                    (λ r c st, Evaluator.mark r (c + 1) (Evaluator.mark r c st))
                    (open_pair HOME) HOME)|].
  - intros r c st. apply (placable_open_pair HOME).
  - intros r c st H. by apply (mark_open_pair HOME).
  - by destruct (count_pairs _ _ _ _).
Qed.

Lemma EvalAwayReserved_counts s : EvalAwayReserved s = away_reserved_pairs s.
Proof.
  unfold EvalAwayReserved, away_reserved_pairs.
  rewrite for_cols_rows_column_major.
  etrans; [apply (count_loop
                    (λ r c st, Evaluator.reserved_for_away r c (r + 1) c st)
                    (λ r c st, Evaluator.mark (r + 1) c (Evaluator.mark r c st))
                    (reserved_pair AWAY) AWAY)|].
  - intros r c st. apply reserved_for_away_reserved_pair.
  - intros r c st H. apply (mark_open_pair AWAY).
    unfold reserved_pair in H. by apply andb_true_iff in H as [H _].
  - by destruct (count_pairs _ _ _ _).
Qed.

Lemma EvalAwayOpen_counts s : EvalAwayOpen s = away_open_pairs s.
Proof.
  unfold EvalAwayOpen, away_open_pairs.
  rewrite for_cols_rows_column_major.
  etrans; [apply (count_loop
                    (λ r c st, Evaluator.placable r c (r + 1) c st)
                    (λ r c st, Evaluator.mark (r + 1) c (Evaluator.mark r c st))
                    (open_pair AWAY) AWAY)|].
  - intros r c st. apply (placable_open_pair AWAY).
  - intros r c st H. by apply (mark_open_pair AWAY).
  - by destruct (count_pairs _ _ _ _).
Qed.

(** C5.  Evaluation framework.  Each scoring pass computes the count of its
    description: the reserved pairs of Home, the open pairs of Home that are
    left, the reserved pairs of Away, the open pairs of Away that are left,
    every counted pair marked on the scratch position.  [evaluate] is the
    weighted sum of these counts in the order of the table: Home reserved
    pairs weigh +2, Home open placements +1, Away reserved pairs -2, Away
    open placements -1, each pass counting on the scratch copy the previous
    one left and the Away passes starting from the scratch copy cleared of
    marks.  No cell reads as marked after either clearing pass.  The passes
    only ever receive the scratch copy; for a rectangular position without
    marks the scratch copy is equal to the position again after each
    clearing pass, so that the Away passes count on the position itself. *)
Theorem evaluate_weighted_sum (state : DomineeringState) :
  let home_reserved := home_reserved_pairs state in
  let home_open := home_open_pairs home_reserved.2 in
  let cleared := Evaluator.clear_marks home_open.2 in
  let away_reserved := away_reserved_pairs cleared in
  let away_open := away_open_pairs away_reserved.2 in
  (∀ scratch,
     EvalHomeReserved scratch = home_reserved_pairs scratch ∧
     EvalHomeOpen scratch = home_open_pairs scratch ∧
     EvalAwayReserved scratch = away_reserved_pairs scratch ∧
     EvalAwayOpen scratch = away_open_pairs scratch)
  ∧ evaluate state =
      (2 * home_reserved.1 + 1 * home_open.1 +
       (-2) * away_reserved.1 + (-1) * away_open.1)%Z
  ∧ (evaluate_run state).2 = Evaluator.clear_marks away_open.2
  ∧ mark_free cleared
  ∧ mark_free (evaluate_run state).2
  ∧ (wf_state state → no_marks state →
     cleared = state ∧ (evaluate_run state).2 = state ∧
     evaluate state =
       (2 * home_reserved.1 + 1 * home_open.1 +
        (-2) * (away_reserved_pairs state).1 +
        (-1) * (away_open_pairs (away_reserved_pairs state).2).1)%Z).
Proof.
  intros home_reserved home_open cleared away_reserved away_open.
  assert (evaluate_run state =
    ((2 * home_reserved.1 + 1 * home_open.1 +
      (-2) * away_reserved.1 + (-1) * away_open.1)%Z,
     Evaluator.clear_marks away_open.2)) as Hrun.
  { unfold evaluate_run, evaluators. cbn [foldl].
    unfold evaluate_step, ClearMarks. cbn [fst snd].
    rewrite EvalHomeReserved_counts. fold home_reserved.
    destruct home_reserved as [hr s1] eqn:E1; cbn [fst snd].
    rewrite EvalHomeOpen_counts.
    subst home_open. cbn [fst snd] in *.
    destruct (home_open_pairs s1) as [ho s2] eqn:E2; cbn [fst snd] in *.
    rewrite EvalAwayReserved_counts. fold cleared. fold away_reserved.
    destruct away_reserved as [ar s4] eqn:E4; cbn [fst snd].
    rewrite EvalAwayOpen_counts.
    subst away_open. cbn [fst snd] in *.
    destruct (away_open_pairs s4) as [ao s5]; cbn [fst snd].
    f_equal. lia. }
  split.
  { intros scratch.
    split; [apply EvalHomeReserved_counts|].
    split; [apply EvalHomeOpen_counts|].
    split; [apply EvalAwayReserved_counts|apply EvalAwayOpen_counts]. }
  unfold evaluate. rewrite Hrun. cbn [fst snd].
  split; [done|]. split; [done|].
  split; [intros r c; apply clear_marks_no_marks|].
  split; [intros r c; apply clear_marks_no_marks|].
  intros Hwf Hno.
  assert (cleared = state) as Hc.
  { apply clear_marks_restores; [done..|]. subst cleared home_open.
    rewrite <- EvalHomeOpen_counts. subst home_reserved.
    rewrite <- EvalHomeReserved_counts.
    apply marked_over_EvalHomeOpen, marked_over_EvalHomeReserved.
    by apply marked_over_refl. }
  split; [done|].
  split; [|by subst away_open away_reserved; rewrite Hc].
  apply clear_marks_restores; [done..|]. subst away_open.
  rewrite <- EvalAwayOpen_counts. subst away_reserved.
  rewrite <- EvalAwayReserved_counts.
  apply marked_over_EvalAwayOpen, marked_over_EvalAwayReserved.
  rewrite Hc. by apply marked_over_refl.
Qed.

(** ** The size of the table *)

Lemma unsigned_succ_below n :
  (Z.of_nat n < UINT_MAX)%Z → unsigned_succ n = n + 1.
Proof.
  unfold unsigned_succ, UINT_MAX. intros H. rewrite Z.mod_small by lia. lia.
Qed.

Lemma unsigned_succ_le n : unsigned_succ n ≤ n + 1.
Proof.
  unfold unsigned_succ, UINT_MAX.
  pose proof (Z.mod_le (Z.of_nat n + 1) (4294967295 + 1)). lia.
Qed.

Lemma unsigned_succ_wraps n : Z.of_nat n = UINT_MAX → unsigned_succ n = 0.
Proof. unfold unsigned_succ, UINT_MAX. by intros ->. Qed.

(** Unfolding steps for the functions of the engine. *)
Tactic Notation "unfold_search_under" := cbn [search_under].
Tactic Notation "unfold_search_under" "in" hyp(H) := cbn [search_under] in H.
Tactic Notation "unfold_search" := unfold search.
Tactic Notation "unfold_search" "in" hyp(H) := unfold search in H.
Tactic Notation "unfold_children_of" := unfold children_of.
Tactic Notation "unfold_children_of" "in" hyp(H) := unfold children_of in H.

Section Properties.

Variables NEG_INF POS_INF : Z.
Variable moveOK : DomineeringState → Location → bool.

Local Abbreviation set_as_terminal := (set_as_terminal NEG_INF POS_INF).
Local Abbreviation expand := (expand moveOK).
Local Abbreviation children_of := (children_of moveOK).
Local Abbreviation search_children := (search_children NEG_INF POS_INF).
Local Abbreviation search_under := (search_under NEG_INF POS_INF moveOK).
Local Abbreviation search := (search NEG_INF POS_INF moveOK).

(** C4.  Tap/untap round trip.  Placing a node whose two cells are empty
    and taking it off again gives back the very same position; and the
    loop of [search_under] leaves its local position [next_state] as it
    found it at every exit (children exhausted, terminal short-circuit,
    pruning), whatever the recursive calls did to the engine. *)
Theorem tap_untap_round_trip :
  (∀ node state, cells_empty state node → untap node (tap node state) = state)
  ∧
  (∀ rec parent current_state children ab next_state s s' next_state',
     Forall (cells_empty next_state) children →
     search_children rec parent current_state children ab next_state s
       = Done (s', next_state') →
     next_state' = next_state).
Proof.
  split.
  { intros node state [H1 H2]. by apply untap_tap. }
  intros rec parent current_state children.
  induction children as [|child rest IH];
    intros ab next_state s s' next_state' Hall Hrun; simpl in Hrun.
  { by inversion Hrun. }
  apply Forall_cons in Hall as [[H1 H2] Hrest].
  rewrite (untap_tap child next_state H1 H2) in Hrun.
  destruct (rec child ab (tap child next_state) s) as [s1| |]; try done.
  destruct (best_moves s1 !! (depth parent + 1)) as [next_move|]; try done.
  destruct (is_terminal next_move).
  { destruct (store_best _ _ s1); by inversion Hrun. }
  set (s2 := if bool_decide (depth parent = 2) then _ else s1) in Hrun.
  clearbody s2.
  destruct (best_moves s2 !! depth parent) as [current_best|]; try done.
  match type of Hrun with
  | (if ?b then _ else _) = _ => destruct b
  end.
  - destruct (store_best (depth parent) _ s2) as [s3| |]; try done.
    destruct (can_prune _ _ _); [by inversion Hrun|].
    by eapply IH.
  - by eapply IH.
Qed.

Lemma expand_placements parent state :
  expand parent state =
  Node_new (toggle (team parent)) (depth parent + 1) <$>
    filter (λ m, moveOK state m) (placements (team parent) state).
Proof.
  unfold expand, for_rows_cols, placements.
  set (new := Node_new _ _).
  assert (∀ rows acc,
    foldl (λ acc r, foldl (λ acc c,
        if moveOK state (mkLocation r c
              (match team parent with HOME => r | AWAY => (r + 1)%Z end)
              (match team parent with HOME => (c + 1)%Z | AWAY => c end))
        then acc ++ [new (mkLocation r c
              (match team parent with HOME => r | AWAY => (r + 1)%Z end)
              (match team parent with HOME => (c + 1)%Z | AWAY => c end))]
        else acc) acc (seqZ 0 (COLS state))) acc rows =
    acc ++ (new <$> filter (λ m, moveOK state m)
              (r ← rows; c ← seqZ 0 (COLS state); [placement_at (team parent) r c])))
    as H.
  { induction rows as [|r rows IH]; intros acc; simpl.
    { by rewrite app_nil_r. }
    rewrite IH. rewrite filter_app, fmap_app, app_assoc. f_equal.
    generalize (seqZ 0 (COLS state)). clear. intros cols. revert acc.
    induction cols as [|c cols IH]; intros acc; simpl.
    { by rewrite app_nil_r. }
    rewrite IH. rewrite filter_cons.
    replace (placement_at (team parent) r c) with
      (mkLocation r c
              (match team parent with HOME => r | AWAY => (r + 1)%Z end)
              (match team parent with HOME => (c + 1)%Z | AWAY => c end))
      by by destruct (team parent).
    destruct (moveOK state _) eqn:E.
    - rewrite decide_True by done. simpl. by rewrite <- app_assoc.
    - by rewrite decide_False by (by intros []). }
  etrans; [apply (H (seqZ 0 (ROWS state)) [])|]. reflexivity.
Qed.

(** C6 (as the code has it).  Move generation.  [expand] returns one
    unscored, non-terminal child per candidate placement the legality
    check accepts, in row-major order of the first cell; the candidates
    are the horizontal pairs when the parent belongs to Home and the
    vertical pairs when it belongs to Away.  Every child is one ply deeper
    than the parent and is tagged with the side that moves next, the
    opponent of the side that placed the domino. *)
Theorem expand_children parent state :
  expand parent state =
    Node_new (toggle (team parent)) (depth parent + 1) <$>
      filter (λ m, moveOK state m) (placements (team parent) state)
  ∧ ∀ child, child ∈ expand parent state →
      moveOK state (parent_move child) = true ∧
      orientation_side (parent_move child) = team parent ∧
      team child = toggle (team parent) ∧
      depth child = depth parent + 1 ∧
      is_unset child = true ∧ is_terminal child = false.
Proof.
  split; [apply expand_placements|].
  intros child. rewrite expand_placements.
  intros (m & -> & Hm)%list_elem_of_fmap.
  apply list_elem_of_filter in Hm as [Hok Hm].
  split; [by apply Is_true_eq_true|]. split; [|done].
  unfold placements in Hm.
  apply list_elem_of_bind in Hm as (r & Hm & _).
  apply list_elem_of_bind in Hm as (c & Hm & _).
  apply list_elem_of_singleton in Hm as ->.
  unfold orientation_side, placement_at. destruct (team parent); simpl.
  - by rewrite bool_decide_eq_true_2.
  - rewrite bool_decide_eq_false_2; [done|lia].
Qed.

(** C9.  With a depth limit of 0 the root itself is at the horizon:
    [search] returns the root placeholder of the engine with the static
    evaluation of the position as its score, whether or not the position
    has legal placements; team, depth and placement are those of the
    root, no move of the board. *)
Theorem search_depth_zero (state : DomineeringState) (s : Searcher) :
  depth (root s) = 0 →
  ∃ s', search state 0 s = Done (set_score (evaluate state) (root s), s') ∧
        root s' = root s ∧ ordered_moves s' = 
          ordered_moves (move_order (team (root s)) s).
Proof.
  intros Hd. unfold_search. unfold_search_under. cbn [root].
  rewrite bool_decide_eq_true_2 by lia.
  unfold store_best. cbn [best_moves root ordered_moves]. rewrite Hd.
  cbn. eexists. split; [done|]. done.
Qed.

Lemma children_of_cached parent state s ordered :
  depth parent = 0 →
  ordered_moves s !! state = Some ordered →
  children_of parent state s = (ordered, clear_ordered s).
Proof.
  intros Hd Hhit. unfold_children_of. rewrite Hhit.
  by rewrite bool_decide_eq_true_2.
Qed.

(** C10.  Consuming a cached ordering at the root empties the whole cache:
    the children are the cached list and no key, the consumed one or any
    other, has an entry any more. *)
Theorem cache_emptied_on_consumption parent state s ordered :
  depth parent = 0 →
  ordered_moves s !! state = Some ordered →
  children_of parent state s = (ordered, clear_ordered s) ∧
  ∀ key, ordered_moves (children_of parent state s).2 !! key = None.
Proof.
  intros Hd Hhit. rewrite (children_of_cached _ _ _ _ Hd Hhit).
  split; [done|]. intros key. apply lookup_empty.
Qed.

Lemma children_of_expand parent state s :
  depth parent ≠ 0 ∨ ordered_moves s !! state = None →
  children_of parent state s = (expand parent state, s).
Proof.
  intros H. unfold_children_of.
  destruct (ordered_moves s !! state) eqn:E; [|done].
  destruct H as [H|H]; [|done]. by rewrite bool_decide_eq_false_2.
Qed.

(** C2 (as the code has it).  Terminal nodes.  Strictly below the depth
    limit, a node for which the move generator finds no placement is
    recorded at its depth as terminal, with the sentinel that favours the
    side that is not to move in the position: [NEG_INF] when Home is to
    move, [POS_INF] when Away is.  (At the depth limit the horizon case
    comes first and the node is evaluated, not marked.) *)
Theorem terminal_below_horizon fuel parent ab state depth_limit s :
  depth parent < depth_limit →
  depth parent < length (best_moves s) →
  depth parent ≠ 0 ∨ ordered_moves s !! state = None →
  expand parent state = [] →
  ∃ s', search_under (S fuel) parent ab state depth_limit s = Done s' ∧
        best_moves s' !! depth parent =
          Some (mkNode (team parent) (depth parent) (parent_move parent)
                  (match who state with HOME => NEG_INF | AWAY => POS_INF end)
                  false true).
Proof.
  intros Hd Hlen Hmiss Hnone. unfold_search_under.
  rewrite bool_decide_eq_false_2 by lia.
  rewrite children_of_expand by done. rewrite Hnone.
  destruct (lookup_lt_is_Some_2 _ _ Hlen) as [cur Hcur]. rewrite Hcur.
  unfold store_best. rewrite Hcur. eexists. split; [done|]. simpl.
  by apply list_lookup_insert_eq.
Qed.

(** *** The loop and the recursion *)

Lemma store_best_Done d n s s' :
  store_best d n s = Done s' →
  s' = mkSearcher (root s) (<[d := n]> (best_moves s)) (ordered_moves s) ∧
  d < length (best_moves s).
Proof.
  unfold store_best. destruct (best_moves s !! d) eqn:E; [|done].
  intros [= <-]. split; [done|]. by eapply lookup_lt_Some.
Qed.

(** A property of the engine that the writes of the loop and the
    recursive calls keep is kept by the loop. *)
Lemma search_children_invariant (Inv : Searcher → Prop)
    rec parent current_state children ab next_state s s' next_state' :
  (∀ d n s s1, Inv s → store_best d n s = Done s1 → Inv s1) →
  (depth parent = 2 → ∀ child v s, child ∈ children → Inv s →
     Inv (push_ordered current_state (set_score v child) s)) →
  (∀ child ab st s s1, child ∈ children → Inv s →
     rec child ab st s = Done s1 → Inv s1) →
  Inv s →
  search_children rec parent current_state children ab next_state s
    = Done (s', next_state') →
  Inv s'.
Proof.
  intros Hstore. revert ab next_state s.
  induction children as [|child rest IH];
    intros ab next_state s Hpush Hrec Hs Hrun; simpl in Hrun.
  { by inversion Hrun; subst. }
  assert (∀ ab next_state s,
            Inv s →
            search_children rec parent current_state rest ab next_state s
              = Done (s', next_state') → Inv s') as IH'.
  { intros ab0 ns0 s0. apply IH.
    - intros Hd ch v s1 Hch. apply Hpush; [done|]. by right.
    - intros ch ab1 st s1 s2 Hch. apply Hrec. by right. }
  destruct (rec child ab (tap child next_state) s) as [s1| |] eqn:Erec;
    try done.
  assert (Inv s1) as Hs1.
  { eapply Hrec; [|done..]. by left. }
  destruct (best_moves s1 !! (depth parent + 1)) as [next_move|]; try done.
  destruct (is_terminal next_move).
  { destruct (store_best _ _ s1) as [s2| |] eqn:Est; try done.
    inversion Hrun; subst. by eapply Hstore. }
  set (s2 := if bool_decide (depth parent = 2) then _ else s1) in Hrun.
  assert (Inv s2) as Hs2.
  { subst s2. case_bool_decide; [|done]. apply Hpush; [done| |done].
    by left. }
  clearbody s2.
  destruct (best_moves s2 !! depth parent) as [current_best|]; try done.
  match type of Hrun with
  | (if ?b then _ else _) = _ => destruct b
  end.
  - destruct (store_best (depth parent) _ s2) as [s3| |] eqn:Est; try done.
    assert (Inv s3) by by eapply Hstore.
    destruct (can_prune _ _ _); [by inversion Hrun; subst|].
    by eapply IH'.
  - by eapply IH'.
Qed.

(** Writes of the cache happen in the loop of a node at depth 2 only: at
    any other depth the loop leaves the cache as the recursive calls
    leave it. *)
Lemma search_children_cache_frame
    rec parent current_state children ab next_state s s' next_state' :
  depth parent ≠ 2 →
  (∀ child ab st s s1, child ∈ children →
     rec child ab st s = Done s1 → ordered_moves s1 = ordered_moves s) →
  search_children rec parent current_state children ab next_state s
    = Done (s', next_state') →
  ordered_moves s' = ordered_moves s.
Proof.
  intros Hd Hrec Hrun.
  eapply (search_children_invariant
            (λ s0, ordered_moves s0 = ordered_moves s)); [..|done|done].
  - intros d n s0 s1 Hs0 [-> _]%store_best_Done. done.
  - done.
  - intros child ab0 st s0 s1 Hch Hs0 Hrun0.
    rewrite <- Hs0. by eapply Hrec.
Qed.

Lemma expand_depth parent state :
  Forall (λ child, depth child = depth parent + 1) (expand parent state).
Proof.
  rewrite expand_placements. apply Forall_forall.
  by intros child (m & -> & _)%list_elem_of_fmap.
Qed.

(** Below depth 2 nothing writes the cache. *)
Lemma search_under_cache_frame fuel parent ab state depth_limit s s' :
  3 ≤ depth parent →
  search_under fuel parent ab state depth_limit s = Done s' →
  ordered_moves s' = ordered_moves s.
Proof.
  revert parent ab state s s'.
  induction fuel as [|fuel IH]; intros parent ab state s s' Hd Hrun;
    [done|].
  unfold_search_under in Hrun.
  case_bool_decide.
  { by apply store_best_Done in Hrun as [-> _]. }
  rewrite children_of_expand in Hrun by (left; lia).
  destruct (best_moves s !! depth parent) as [current_best|]; [|done].
  pose proof (expand_depth parent state) as Hdepths.
  destruct (expand parent state) as [|child rest] eqn:Hch.
  { by apply store_best_Done in Hrun as [-> _]. }
  destruct (store_best _ _ s) as [s1| |] eqn:Est; try done.
  apply store_best_Done in Est as [-> _].
  match type of Hrun with
  | match ?run with _ => _ end = _ =>
      destruct run as [[s2 ns]| |] eqn:Eloop; try done
  end.
  inversion Hrun; subst.
  apply search_children_cache_frame in Eloop; [done|lia|].
  intros ch ab0 st s0 s1 Hin Hrun0. eapply IH; [|done].
  rewrite Forall_forall in Hdepths. rewrite (Hdepths ch Hin). lia.
Qed.

Lemma cache_wf_push key n s :
  depth n = 3 → cache_wf s → cache_wf (push_ordered key n s).
Proof.
  intros Hn Hs. unfold cache_wf, push_ordered. simpl.
  apply map_Forall_insert_2; [|done].
  apply Forall_app. split; [|by repeat constructor].
  destruct (ordered_moves s !! key) as [l|] eqn:E; simpl; [|done].
  by apply (Hs key l).
Qed.

(** The recursion keeps the cache well formed. *)
Lemma search_under_cache_wf fuel parent ab state depth_limit s s' :
  cache_wf s →
  search_under fuel parent ab state depth_limit s = Done s' →
  cache_wf s'.
Proof.
  revert parent ab state s s'.
  induction fuel as [|fuel IH]; intros parent ab state s s' Hwf Hrun;
    [done|].
  unfold_search_under in Hrun.
  case_bool_decide.
  { by apply store_best_Done in Hrun as [-> _]. }
  destruct (children_of parent state s) as [children s0] eqn:Hch.
  assert (cache_wf s0 ∧
          (depth parent = 2 → Forall (λ n, depth n = 3) children))
    as [Hwf0 Hdepths].
  { unfold_children_of in Hch.
    pose proof (expand_depth parent state) as He.
    destruct (ordered_moves s !! state).
    - case_bool_decide as H0; inversion Hch; subst.
      + split; [apply map_Forall_empty|]. intros; lia.
      + split; [done|]. intros Hd2.
        eapply Forall_impl; [exact He|]. intros; simpl in *; lia.
    - inversion Hch; subst. split; [done|]. intros Hd2.
      eapply Forall_impl; [exact He|]. intros; simpl in *; lia. }
  clear Hch.
  destruct (best_moves s0 !! depth parent) as [current_best|]; [|done].
  destruct children as [|child rest].
  { by apply store_best_Done in Hrun as [-> _]. }
  destruct (store_best _ _ s0) as [s1| |] eqn:Est; try done.
  apply store_best_Done in Est as [-> _].
  match type of Hrun with
  | match ?run with _ => _ end = _ =>
      destruct run as [[s2 ns]| |] eqn:Eloop; try done
  end.
  inversion Hrun; subst.
  eapply (search_children_invariant cache_wf) in Eloop; [done|..|done].
  - by intros d n s0' s1 Hs0 [-> _]%store_best_Done.
  - intros Hd ch v s1 Hin Hs1. apply cache_wf_push; [|done].
    specialize (Hdepths Hd). rewrite Forall_forall in Hdepths.
    simpl. by apply Hdepths.
  - intros ch ab0 st s1 s2' _ Hs1 Hrun0. by eapply IH.
Qed.

(** The recursion keeps the root and the size of the table. *)
Lemma search_under_frame fuel parent ab state depth_limit s s' :
  search_under fuel parent ab state depth_limit s = Done s' →
  root s' = root s ∧ length (best_moves s') = length (best_moves s).
Proof.
  revert parent ab state s s'.
  induction fuel as [|fuel IH]; intros parent ab state s s' Hrun; [done|].
  unfold_search_under in Hrun.
  assert (∀ d n s0 s1, store_best d n s0 = Done s1 →
            root s1 = root s0 ∧
            length (best_moves s1) = length (best_moves s0)) as Hstore.
  { intros d n s0 s1 [-> _]%store_best_Done. simpl.
    by rewrite length_insert. }
  case_bool_decide; [by eapply Hstore|].
  destruct (children_of parent state s) as [children s0] eqn:Hch.
  assert (root s0 = root s ∧ best_moves s0 = best_moves s) as [Hr Hb].
  { unfold_children_of in Hch.
    destruct (ordered_moves s !! state); [case_bool_decide|];
      by inversion Hch. }
  rewrite <- Hr, <- Hb. clear Hch Hr Hb.
  destruct (best_moves s0 !! depth parent) as [current_best|]; [|done].
  destruct children as [|child rest]; [by eapply Hstore|].
  destruct (store_best _ _ s0) as [s1| |] eqn:Est; try done.
  apply Hstore in Est as [<- <-].
  match type of Hrun with
  | match ?run with _ => _ end = _ =>
      destruct run as [[s2 ns]| |] eqn:Eloop; try done
  end.
  inversion Hrun; subst.
  eapply (search_children_invariant
            (λ s0, root s0 = root s1 ∧
                   length (best_moves s0) = length (best_moves s1)))
    in Eloop; [done|..|done].
  - intros d n s2 s3 [<- <-] Hst. by eapply Hstore.
  - by intros _ ch v s2 _ [<- <-].
  - intros ch ab0 st s2 s3 _ [<- <-] Hrun0. by eapply IH.
Qed.

(** The loop runs to its end when the recursive calls do and the table
    reaches one entry beyond the depth of the parent. *)
Lemma search_children_done (n : nat)
    rec parent current_state children ab next_state s :
  depth parent + 1 < n →
  length (best_moves s) = n →
  (∀ child ab st s, child ∈ children → length (best_moves s) = n →
     ∃ s1, rec child ab st s = Done s1 ∧ length (best_moves s1) = n) →
  ∃ s' next_state',
    search_children rec parent current_state children ab next_state s
      = Done (s', next_state') ∧
    length (best_moves s') = n.
Proof.
  intros Hd. revert ab next_state s.
  induction children as [|child rest IH]; intros ab next_state s Hlen Hrec;
    simpl.
  { by eexists _, _. }
  assert (∀ ab next_state s, length (best_moves s) = n →
            ∃ s' next_state',
              search_children rec parent current_state rest ab next_state s
                = Done (s', next_state') ∧
              length (best_moves s') = n) as IH'.
  { intros ab0 ns0 s0 Hlen0. apply IH; [done|].
    intros ch ab1 st s1 Hin. apply Hrec. by right. }
  destruct (Hrec child ab (tap child next_state) s) as (s1 & -> & Hlen1);
    [by left|done|].
  destruct (lookup_lt_is_Some_2 (best_moves s1) (depth parent + 1))
    as [next_move ->]; [lia|].
  assert (∀ node s0, length (best_moves s0) = n →
            ∃ s2, store_best (depth parent) node s0 = Done s2 ∧
                  length (best_moves s2) = n) as Hstore.
  { intros node s0 Hlen0. unfold store_best.
    destruct (lookup_lt_is_Some_2 (best_moves s0) (depth parent))
      as [cur ->]; [lia|].
    eexists. split; [done|]. simpl. by rewrite length_insert. }
  destruct (is_terminal next_move).
  { destruct (Hstore (set_as_terminal (untap child (tap child next_state))
                        (set_score (score next_move) child)) s1 Hlen1)
      as (s2 & -> & Hlen2).
    by eexists _, _. }
  set (s2 := if bool_decide (depth parent = 2) then _ else s1).
  assert (length (best_moves s2) = n) as Hlen2.
  { subst s2. by case_bool_decide. }
  clearbody s2.
  destruct (lookup_lt_is_Some_2 (best_moves s2) (depth parent))
    as [current_best ->]; [lia|].
  match goal with
  | |- context [if ?b then _ else _] => destruct b
  end; [|by apply IH'].
  destruct (Hstore (set_score (score next_move) child) s2 Hlen2)
    as (s3 & -> & Hlen3).
  destruct (can_prune _ _ _); [by eexists _, _|by apply IH'].
Qed.

(** A search that takes its children from the move generator runs to its
    end within [depth_limit - depth parent + 1] nested calls. *)
Lemma search_under_done fuel parent ab state depth_limit s :
  depth parent ≤ depth_limit →
  depth_limit - depth parent < fuel →
  length (best_moves s) = depth_limit + 1 →
  depth parent ≠ 0 ∨ ordered_moves s !! state = None →
  ∃ s', search_under fuel parent ab state depth_limit s = Done s' ∧
        length (best_moves s') = depth_limit + 1.
Proof.
  revert parent ab state s.
  induction fuel as [|fuel IH]; intros parent ab state s Hd Hfuel Hlen Hmiss;
    [lia|].
  unfold_search_under.
  assert (∀ node s0, length (best_moves s0) = depth_limit + 1 →
            ∃ s2, store_best (depth parent) node s0 = Done s2 ∧
                  length (best_moves s2) = depth_limit + 1) as Hstore.
  { intros node s0 Hlen0. unfold store_best.
    destruct (lookup_lt_is_Some_2 (best_moves s0) (depth parent))
      as [cur ->]; [lia|].
    eexists. split; [done|]. simpl. by rewrite length_insert. }
  case_bool_decide as Hh; [by apply Hstore|].
  rewrite children_of_expand by done.
  destruct (lookup_lt_is_Some_2 (best_moves s) (depth parent))
    as [current_best ->]; [lia|].
  pose proof (expand_depth parent state) as Hdepths.
  destruct (expand parent state) as [|child rest]; [by apply Hstore|].
  match goal with
  | |- context [store_best ?d ?node s] =>
      destruct (Hstore node s Hlen) as (s1 & -> & Hlen1)
  end.
  match goal with
  | |- context [search_children ?rec ?p ?cs ?ch ?ab0 ?ns ?s0] =>
      destruct (search_children_done (depth_limit + 1) rec p cs ch ab0 ns s0)
        as (s2 & ns2 & -> & Hlen2)
  end; [lia|done| |by eexists].
  intros ch ab0 st s0 Hin Hlen0.
  rewrite Forall_forall in Hdepths. specialize (Hdepths ch Hin).
  apply IH; [lia|lia|done|left; lia].
Qed.

(** So does [search], for a depth limit below the wrap of the size of the
    table. *)
Lemma search_done state depth_limit s :
  depth (root s) = 0 → ordered_moves s !! state = None →
  (Z.of_nat depth_limit < UINT_MAX)%Z →
  ∃ n s', search state depth_limit s = Done (n, s').
Proof.
  intros Hd Hmiss Hmax. unfold_search. rewrite (unsigned_succ_below _ Hmax).
  match goal with
  | |- context [search_under ?f ?p ?ab0 ?st ?L0 ?s0] =>
      destruct (search_under_done f p ab0 st L0 s0) as (s1 & -> & Hlen)
  end; [simpl; lia|simpl; lia|simpl; by rewrite length_replicate|by right|].
  destruct (best_moves s1); [simpl in Hlen; lia|]. by eexists _, _.
Qed.

(** At [UINT_MAX] the table is resized to no entry at all, and the first
    access of the search, to the entry of the root, is out of range. *)
Lemma search_wraps state depth_limit s :
  Z.of_nat depth_limit = UINT_MAX → search state depth_limit s = Fault.
Proof.
  intros Hmax. unfold_search. rewrite (unsigned_succ_wraps _ Hmax).
  cbn [replicate]. unfold_search_under. cbn [root].
  case_bool_decide; [done|].
  match goal with
  | |- context [children_of ?p ?st ?s0] =>
      assert (best_moves (children_of p st s0).2 = []) as Hb;
      [|destruct (children_of p st s0) as [children s1]]
  end.
  { unfold_children_of. cbn [ordered_moves].
    destruct (ordered_moves s !! state); [case_bool_decide|]; done. }
  simpl in Hb. by rewrite Hb.
Qed.

(** A search from the root that takes its children from the cache leaves
    the cache empty. *)
Lemma search_under_consumes fuel parent ab state depth_limit s s' ordered :
  depth parent = 0 → 0 < depth_limit →
  ordered_moves s !! state = Some ordered →
  Forall (λ n, depth n = 3) ordered →
  search_under fuel parent ab state depth_limit s = Done s' →
  ordered_moves s' = ∅.
Proof.
  intros Hd HL Hhit Hdepths Hrun.
  destruct fuel as [|fuel]; [done|].
  unfold_search_under in Hrun.
  rewrite bool_decide_eq_false_2 in Hrun by lia.
  rewrite (children_of_cached parent state s ordered Hd Hhit) in Hrun.
  destruct (best_moves (clear_ordered s) !! depth parent)
    as [current_best|]; [|done].
  destruct ordered as [|child rest].
  { by apply store_best_Done in Hrun as [-> _]. }
  destruct (store_best _ _ (clear_ordered s)) as [s1| |] eqn:Est; try done.
  apply store_best_Done in Est as [-> _].
  match type of Hrun with
  | match ?run with _ => _ end = _ =>
      destruct run as [[s2 ns]| |] eqn:Eloop; try done
  end.
  inversion Hrun; subst.
  apply search_children_cache_frame in Eloop; [done|lia|].
  intros ch ab0 st s0 s1 Hin Hrun0.
  eapply search_under_cache_frame; [|done].
  rewrite Forall_forall in Hdepths. by rewrite (Hdepths ch Hin).
Qed.

(** From a depth limit of 3 on, such a search runs to its end. *)
Lemma search_under_consumes_done fuel parent ab state depth_limit s ordered :
  depth parent = 0 → 3 ≤ depth_limit → depth_limit < fuel →
  length (best_moves s) = depth_limit + 1 →
  ordered_moves s !! state = Some ordered →
  Forall (λ n, depth n = 3) ordered →
  ∃ s', search_under fuel parent ab state depth_limit s = Done s' ∧
        length (best_moves s') = depth_limit + 1.
Proof.
  intros Hd HL Hfuel Hlen Hhit Hdepths.
  destruct fuel as [|fuel]; [lia|].
  unfold_search_under.
  rewrite bool_decide_eq_false_2 by lia.
  rewrite (children_of_cached parent state s ordered Hd Hhit).
  assert (∀ node s0, length (best_moves s0) = depth_limit + 1 →
            ∃ s2, store_best (depth parent) node s0 = Done s2 ∧
                  length (best_moves s2) = depth_limit + 1) as Hstore.
  { intros node s0 Hlen0. unfold store_best.
    destruct (lookup_lt_is_Some_2 (best_moves s0) (depth parent))
      as [cur ->]; [lia|].
    eexists. split; [done|]. simpl. by rewrite length_insert. }
  destruct (lookup_lt_is_Some_2 (best_moves (clear_ordered s)) (depth parent))
    as [current_best ->]; [simpl; lia|].
  destruct ordered as [|child rest]; [by apply Hstore|].
  match goal with
  | |- context [store_best ?d ?node ?s0] =>
      destruct (Hstore node s0 Hlen) as (s1 & -> & Hlen1)
  end.
  match goal with
  | |- context [search_children ?rec ?p ?cs ?ch ?ab0 ?ns ?s0] =>
      destruct (search_children_done (depth_limit + 1) rec p cs ch ab0 ns s0)
        as (s2 & ns2 & -> & Hlen2)
  end; [lia|done| |by eexists].
  intros ch ab0 st s0 Hin Hlen0.
  rewrite Forall_forall in Hdepths. specialize (Hdepths ch Hin).
  apply search_under_done; [lia|lia|done|left; lia].
Qed.

Lemma cache_wf_move_order t s : cache_wf s → cache_wf (move_order t s).
Proof.
  intros Hs. unfold cache_wf, move_order. simpl.
  apply map_Forall_fmap. eapply map_Forall_impl; [exact Hs|].
  intros key moves Hmoves. simpl.
  destruct t; by rewrite merge_sort_Permutation.
Qed.

(** C3.  Life cycle of the move-order cache.  The loop of a node that is
    not at depth 2 writes nothing into the cache, and nothing below depth
    2 does; what a search leaves in the cache are children of depth 2
    nodes; the cache is read for the children only at the root; and a
    search that consumes the entry of its root position ends with an empty
    cache, so that no later search finds the entry again.  Such a search
    runs to its end for a depth limit from 3 up to, but not including,
    [UINT_MAX], where the size of the table wraps to 0. *)
Theorem cache_lifecycle :
  (∀ rec parent current_state children ab next_state s s' next_state',
     depth parent ≠ 2 →
     (∀ child ab st s s1, child ∈ children →
        rec child ab st s = Done s1 → ordered_moves s1 = ordered_moves s) →
     search_children rec parent current_state children ab next_state s
       = Done (s', next_state') →
     ordered_moves s' = ordered_moves s)
  ∧ (∀ fuel parent ab state depth_limit s s',
       3 ≤ depth parent →
       search_under fuel parent ab state depth_limit s = Done s' →
       ordered_moves s' = ordered_moves s)
  ∧ (∀ state depth_limit s n s',
       cache_wf s → search state depth_limit s = Done (n, s') → cache_wf s')
  ∧ (∀ parent state s,
       depth parent ≠ 0 →
       children_of parent state s = (expand parent state, s))
  ∧ (∀ state depth_limit s,
       depth (root s) = 0 → 0 < depth_limit → cache_wf s →
       is_Some (ordered_moves s !! state) →
       (∀ n s', search state depth_limit s = Done (n, s') →
                ordered_moves s' = ∅) ∧
       (3 ≤ depth_limit → (Z.of_nat depth_limit < UINT_MAX)%Z →
        ∃ n s', search state depth_limit s = Done (n, s'))).
Proof.
  split; [apply search_children_cache_frame|].
  split; [apply search_under_cache_frame|].
  split; [|split].
  - intros state L s n s' Hwf Hrun. unfold_search in Hrun.
    match type of Hrun with
    | match ?run with _ => _ end = _ =>
        destruct run as [s1| |] eqn:Erun; try done
    end.
    apply search_under_cache_wf in Erun; [|done].
    destruct (best_moves s1); [done|]. inversion Hrun; subst.
    by apply cache_wf_move_order.
  - intros parent state s Hd. apply children_of_expand. by left.
  - intros state L s Hd HL Hwf [ordered Hhit].
    assert (Forall (λ n, depth n = 3) ordered) as Hdepths
      by by apply (Hwf state).
    split.
    + intros n s' Hrun. unfold_search in Hrun.
      match type of Hrun with
      | match ?run with _ => _ end = _ =>
          destruct run as [s1| |] eqn:Erun; try done
      end.
      eapply search_under_consumes in Erun; [|done..].
      destruct (best_moves s1); [done|]. inversion Hrun; subst.
      unfold move_order. simpl. rewrite Erun. apply fmap_empty.
    + intros HL3 Hmax. unfold_search. rewrite (unsigned_succ_below L Hmax).
      match goal with
      | |- context [search_under ?f ?p ?ab0 ?st ?L0 ?s0] =>
          destruct (search_under_consumes_done f p ab0 st L0 s0 ordered)
            as (s1 & -> & Hlen1)
      end; [done|done|lia|simpl; by rewrite length_replicate|done|done|].
      destruct (best_moves s1); [simpl in Hlen1; lia|]. by eexists _, _.
Qed.

(** *** The table does not depend on the cache

    Two runs that start with the same table of best moves and take their
    children from the move generator go through the same steps, whatever
    their caches hold. *)

Lemma store_best_table d n s1 s2 :
  best_moves s1 = best_moves s2 →
  table_of (store_best d n s1) = table_of (store_best d n s2).
Proof.
  intros H. unfold store_best. rewrite H.
  by destruct (best_moves s2 !! d).
Qed.

Lemma search_children_table rec parent current_state children ab next_state
    s1 s2 :
  best_moves s1 = best_moves s2 →
  (∀ child ab st s1 s2, child ∈ children →
     best_moves s1 = best_moves s2 →
     table_of (rec child ab st s1) = table_of (rec child ab st s2)) →
  loop_table_of
    (search_children rec parent current_state children ab next_state s1) =
  loop_table_of
    (search_children rec parent current_state children ab next_state s2).
Proof.
  revert ab next_state s1 s2.
  induction children as [|child rest IH]; intros ab next_state s1 s2 Heq Hrec;
    cbn [search_children].
  { simpl. by rewrite Heq. }
  assert (∀ ab next_state s1 s2, best_moves s1 = best_moves s2 →
    loop_table_of
      (search_children rec parent current_state rest ab next_state s1) =
    loop_table_of
      (search_children rec parent current_state rest ab next_state s2))
    as IH'.
  { intros ab0 ns0 t1 t2 Ht. apply IH; [done|].
    intros ch ab1 st u1 u2 Hin. apply Hrec. by right. }
  pose proof (Hrec child ab (tap child next_state) s1 s2
                (list_elem_of_here _ _) Heq) as Hr.
  destruct (rec child ab (tap child next_state) s1) as [t1| |],
           (rec child ab (tap child next_state) s2) as [t2| |];
    simpl in Hr; try done.
  assert (best_moves t1 = best_moves t2) as Ht by congruence. clear Hr.
  rewrite Ht.
  destruct (best_moves t2 !! (depth parent + 1)) as [next_move|]; [|done].
  destruct (is_terminal next_move).
  { match goal with
    | |- context [store_best ?d ?n t1] =>
        pose proof (store_best_table d n t1 t2 Ht) as Hst;
        destruct (store_best d n t1) as [u1| |],
                 (store_best d n t2) as [u2| |]; simpl in Hst; try done
    end.
    simpl. congruence. }
  set (u1 := if bool_decide (depth parent = 2) then _ else t1).
  set (u2 := if bool_decide (depth parent = 2) then _ else t2).
  assert (best_moves u1 = best_moves u2) as Hu.
  { subst u1 u2. by case_bool_decide. }
  clearbody u1 u2. rewrite Hu.
  destruct (best_moves u2 !! depth parent) as [current_best|]; [|done].
  match goal with
  | |- context [if ?b then _ else _] => destruct b
  end; [|by apply IH'].
  match goal with
  | |- context [store_best ?d ?n u1] =>
      pose proof (store_best_table d n u1 u2 Hu) as Hst;
      destruct (store_best d n u1) as [v1| |],
               (store_best d n u2) as [v2| |]; simpl in Hst; try done
  end.
  assert (best_moves v1 = best_moves v2) as Hv by congruence.
  destruct (can_prune _ _ _); [simpl; by rewrite Hv|by apply IH'].
Qed.

Lemma search_under_table fuel parent ab state depth_limit s1 s2 :
  best_moves s1 = best_moves s2 →
  depth parent ≠ 0 ∨
    (ordered_moves s1 !! state = None ∧ ordered_moves s2 !! state = None) →
  table_of (search_under fuel parent ab state depth_limit s1) =
  table_of (search_under fuel parent ab state depth_limit s2).
Proof.
  revert parent ab state s1 s2.
  induction fuel as [|fuel IH]; intros parent ab state s1 s2 Heq Hmiss;
    [done|].
  unfold_search_under.
  case_bool_decide; [by apply store_best_table|].
  rewrite !children_of_expand by tauto.
  rewrite Heq.
  destruct (best_moves s2 !! depth parent) as [current_best|]; [|done].
  pose proof (expand_depth parent state) as Hdepths.
  destruct (expand parent state) as [|child rest];
    [by apply store_best_table|].
  match goal with
  | |- context [store_best ?d ?n s1] =>
      pose proof (store_best_table d n s1 s2 Heq) as Hst;
      destruct (store_best d n s1) as [t1| |],
               (store_best d n s2) as [t2| |]; simpl in Hst; try done
  end.
  assert (best_moves t1 = best_moves t2) as Ht by congruence.
  match goal with
  | |- context [search_children ?rec ?p ?cs ?ch ?ab0 ?ns t1] =>
      assert (loop_table_of (search_children rec p cs ch ab0 ns t1) =
              loop_table_of (search_children rec p cs ch ab0 ns t2))
        as Hloop;
      [|destruct (search_children rec p cs ch ab0 ns t1) as [[u1 n1]| |],
                 (search_children rec p cs ch ab0 ns t2) as [[u2 n2]| |];
        simpl in Hloop; try done; simpl; congruence]
  end.
  apply search_children_table; [done|].
  intros ch ab0 st v1 v2 Hin Hv. apply IH; [done|left].
  rewrite Forall_forall in Hdepths. rewrite (Hdepths ch Hin). lia.
Qed.

(** C8 (as the code has it).  Determinism.  Two engines with the same root
    whose caches hold no ordering for the position (empty caches in
    particular), whatever else their caches and their tables of best moves
    hold, run [search] on the same position with the same depth limit below
    [UINT_MAX] to its end; they return the same node, same move and same
    score, and leave the same table of best moves. *)
Theorem search_deterministic state depth_limit s1 s2 :
  root s1 = root s2 → depth (root s1) = 0 →
  ordered_moves s1 !! state = None → ordered_moves s2 !! state = None →
  (Z.of_nat depth_limit < UINT_MAX)%Z →
  ∃ n s1' s2', search state depth_limit s1 = Done (n, s1') ∧
               search state depth_limit s2 = Done (n, s2') ∧
               best_moves s1' = best_moves s2'.
Proof.
  intros Hroot Hd He1 He2 Hmax. unfold_search.
  rewrite (unsigned_succ_below _ Hmax). cbn [root]. rewrite <- Hroot.
  set (t1 := mkSearcher (root s1) (replicate (depth_limit + 1) Node_default)
                        (ordered_moves s1)).
  set (t2 := mkSearcher (root s1) (replicate (depth_limit + 1) Node_default)
                        (ordered_moves s2)).
  set (ab := mkAlphaBeta NEG_INF POS_INF).
  pose proof (search_under_table (S depth_limit) (root s1) ab state
                depth_limit t1 t2 eq_refl (or_intror (conj He1 He2))) as Hrel.
  destruct (search_under_done (S depth_limit) (root s1) ab state depth_limit
              t1) as (u1 & Hrun1 & Hlen1);
    [lia|lia|by apply length_replicate|by right|].
  destruct (search_under_done (S depth_limit) (root s1) ab state depth_limit
              t2) as (u2 & Hrun2 & Hlen2);
    [lia|lia|by apply length_replicate|by right|].
  rewrite Hrun1, Hrun2 in Hrel |- *. simpl in Hrel.
  assert (best_moves u1 = best_moves u2) as Hu by congruence.
  rewrite Hu. destruct (best_moves u2) as [|front rest] eqn:Hb;
    [simpl in Hlen2; lia|].
  eexists _, _, _. split; [done|]. split; [done|]. simpl. congruence.
Qed.

End Properties.

(** * The claims at concrete positions *)

(** C1.  Minimax consistency does not hold of the search.  On the 2x3
    position [pos_2x3], Away to move, depth limit 3, the root has a single
    child; the score backed up for that child is [INT_MAX] (Home wins), yet
    the score recorded for the root is [INT_MIN]: the terminal short-circuit
    re-signs the sentinel for the side that moves at the node instead of
    taking the minimum.  On the 2x4 position [pos_2x4], Away to move, depth
    limit 3, the search returns the score 0 whereas the same search with
    pruning disabled returns [INT_MIN]: a sibling that pruning skips is
    terminal and short-circuits the unpruned run. *)
Theorem minimax_consistency_violated :
  (expand legal_placement (root (fresh_searcher AWAY)) pos_2x3
     = [Node_new HOME 1 (mkLocation 0 0 1 0)]
   ∧ score_and_table
       (search INT_MIN INT_MAX legal_placement pos_2x3 3 (fresh_searcher AWAY))
     = Some (INT_MIN, true,
             [(INT_MIN, true); (INT_MAX, true); (INT_MAX, true); (0%Z, false)]))
  ∧ (score_and_table
       (search INT_MIN INT_MAX legal_placement pos_2x4 3 (fresh_searcher AWAY))
     = Some (0%Z, false,
             [(0%Z, false); (0%Z, false); (0%Z, false); (0%Z, false)])
     ∧ score_and_table
       (search_no_pruning INT_MIN INT_MAX legal_placement pos_2x4 3
          (fresh_searcher AWAY))
     = Some (INT_MIN, true,
             [(INT_MIN, true); (INT_MAX, true); (INT_MAX, true); (0%Z, false)])).
Proof. repeat split; vm_compute; reflexivity. Qed.

(** C2 fails at the horizon: on the 1x1 board no placement exists, yet with
    the node at the depth limit the search records the static evaluation
    and no terminal flag. *)
Lemma terminal_at_horizon_counterexample :
  let state := position_of ["."]%string AWAY in
  let parent := root (fresh_searcher AWAY) in
  let s := mkSearcher parent [Node_default] ∅ in
  expand legal_placement parent state = [] ∧
  ∃ s' n, search_under INT_MIN INT_MAX legal_placement 1 parent
            (mkAlphaBeta INT_MIN INT_MAX) state 0 s = Done s' ∧
          best_moves s' !! depth parent = Some n ∧
          is_terminal n = false ∧ score n = evaluate state.
Proof.
  split; [by vm_compute|]. eexists _, _. split; [by vm_compute|].
  split; [reflexivity|]. split; by vm_compute.
Qed.

(** C8 fails at the wrap: with the depth limit [UINT_MAX] the table is
    resized to [UINT_MAX + 1 = 0] entries, and a run of [search] from an
    empty cache reads the entry of the root out of range; it returns no
    node. *)
Lemma search_at_wrap_counterexample :
  let depth_limit := Z.to_nat UINT_MAX in
  let s := fresh_searcher HOME in
  let state := position_of [".."; ".."]%string HOME in
  ordered_moves s = ∅ ∧
  search INT_MIN INT_MAX legal_placement state depth_limit s = Fault.
Proof.
  intros depth_limit s state. split; [reflexivity|].
  apply search_wraps. subst depth_limit. apply Z2Nat.id.
  unfold UINT_MAX. lia.
Qed.

(** C6 fails on the tag: on the 1x2 board with Home to move the only child
    is the horizontal placement, the orientation of Home, and it is tagged
    Away. *)
Lemma expand_child_team_counterexample :
  let state := position_of [".."]%string HOME in
  let parent := root (fresh_searcher HOME) in
  ¬ (∀ child, child ∈ expand legal_placement parent state →
       team child = orientation_side (parent_move child)).
Proof.
  intros state parent H.
  specialize (H (Node_new AWAY 1 (mkLocation 0 0 0 1))).
  assert (expand legal_placement parent state
          = [Node_new AWAY 1 (mkLocation 0 0 0 1)]) as E by by vm_compute.
  rewrite E in H. specialize (H (list_elem_of_here _ _)). by vm_compute in H.
Qed.

(** ** Instances of the theorems at concrete positions *)

Lemma tap_untap_round_trip_witness :
  let node := Node_new AWAY 1 (mkLocation 0 0 0 1) in
  let state := position_of [".."]%string HOME in
  (cells_empty state node ∧ untap node (tap node state) = state) ∧
  (Forall (cells_empty state) [node] ∧
   ∀ s s' next_state',
     search_children INT_MIN INT_MAX (λ _ _ _ s, Done s) Node_default state [node]
       (mkAlphaBeta INT_MIN INT_MAX) state s = Done (s', next_state') →
     next_state' = state).
Proof.
  intros node state.
  assert (cells_empty state node) as H by (split; by vm_compute).
  split.
  - split; [done|].
    by apply (proj1 (tap_untap_round_trip INT_MIN INT_MAX)).
  - assert (Forall (cells_empty state) [node]) as HF by by constructor.
    split; [done|]. intros s s' ns'.
    by apply (proj2 (tap_untap_round_trip INT_MIN INT_MAX)).
Defined.

Lemma evaluate_weighted_sum_witness :
  let state := position_of ["..W."; "WWW."; "...."]%string HOME in
  wf_state state ∧ no_marks state ∧
  (EvalHomeReserved state).1 = 2%Z ∧
  (EvalHomeOpen (EvalHomeReserved state).2).1 = 1%Z ∧
  (EvalAwayReserved state).1 = 1%Z ∧
  (EvalAwayOpen (EvalAwayReserved state).2).1 = 0%Z ∧
  evaluate state = 3%Z ∧
  (evaluate_run state).2 = state.
Proof.
  intros state.
  assert (wf_state state) as Hwf by (split; [done|by repeat constructor]).
  assert (no_marks state) as Hno by (by repeat constructor).
  destruct (evaluate_weighted_sum state)
    as (Hpasses & Hsum & _ & _ & _ & Hrestore).
  destruct (Hrestore Hwf Hno) as (_ & Hfinal & _).
  split; [done|]. split; [done|].
  split; [by rewrite (proj1 (Hpasses state))|].
  split.
  { rewrite (proj1 (Hpasses state)).
    by rewrite (proj1 (proj2 (Hpasses (home_reserved_pairs state).2))). }
  split; [by rewrite (proj1 (proj2 (proj2 (Hpasses state))))|].
  split.
  { rewrite (proj1 (proj2 (proj2 (Hpasses state)))).
    by rewrite (proj2 (proj2 (proj2 (Hpasses (away_reserved_pairs state).2)))). }
  split; [|done]. rewrite Hsum. by vm_compute.
Defined.

Lemma search_depth_zero_witness :
  let s := fresh_searcher HOME in
  let state := position_of [".."; ".."]%string HOME in
  depth (root s) = 0 ∧
  ∃ s', search INT_MIN INT_MAX legal_placement state 0 s
          = Done (set_score (evaluate state) (root s), s').
Proof.
  intros s state. split; [done|].
  destruct (search_depth_zero INT_MIN INT_MAX legal_placement state s)
    as (s' & H & _); [done|]. by exists s'.
Defined.

Lemma cache_emptied_on_consumption_witness :
  depth (root cached_engine) = 0 ∧
  is_Some (ordered_moves cached_engine !! pos_3x3) ∧
  ∀ key, ordered_moves
           (children_of legal_placement (root cached_engine) pos_3x3
              cached_engine).2 !! key = None.
Proof.
  split; [done|].
  assert (ordered_moves cached_engine !! pos_3x3 =
          Some [set_score 2 (Node_new AWAY 3 (mkLocation 1 0 1 1));
                set_score 0 (Node_new AWAY 3 (mkLocation 2 1 2 2))]) as H
    by apply lookup_singleton_eq.
  split; [by eexists|].
  by apply (cache_emptied_on_consumption legal_placement
              (root cached_engine) pos_3x3 cached_engine _ eq_refl H).
Defined.

Lemma terminal_below_horizon_witness :
  let state := position_of ["."]%string AWAY in
  let parent := root (fresh_searcher AWAY) in
  let s := mkSearcher parent [Node_default; Node_default] ∅ in
  expand legal_placement parent state = [] ∧
  ∃ s', search_under INT_MIN INT_MAX legal_placement 1 parent
          (mkAlphaBeta INT_MIN INT_MAX) state 1 s = Done s' ∧
        best_moves s' !! 0 =
          Some (mkNode AWAY 0 (mkLocation 0 0 0 0) INT_MAX false true).
Proof.
  intros state parent s.
  assert (expand legal_placement parent state = []) as H by by vm_compute.
  split; [done|].
  apply (terminal_below_horizon INT_MIN INT_MAX legal_placement 0 parent
           (mkAlphaBeta INT_MIN INT_MAX) state 1 s);
    [simpl; lia|simpl; lia|by left + by right|done].
Defined.

Lemma cache_lifecycle_witness :
  cache_wf cached_engine ∧
  ∃ n s', search INT_MIN INT_MAX legal_placement pos_3x3 3 cached_engine
            = Done (n, s') ∧ ordered_moves s' = ∅.
Proof.
  assert (cache_wf cached_engine) as Hwf.
  { apply map_Forall_singleton. by repeat constructor. }
  split; [done|].
  destruct (proj2 (proj2 (proj2 (proj2
              (cache_lifecycle INT_MIN INT_MAX legal_placement))))
              pos_3x3 3 cached_engine) as [Hgone Hdone];
    [done|lia|done|by unfold cached_engine; simpl; rewrite lookup_singleton_eq|].
  destruct Hdone as (n & s' & Hrun); [lia|by vm_compute|].
  exists n, s'. split; [done|]. by eapply Hgone.
Defined.

Lemma search_deterministic_witness :
  let s1 := fresh_searcher HOME in
  let s2 := mkSearcher (root s1) [set_score 7 Node_default]
                       (ordered_moves cached_engine) in
  let state := position_of ["..."; "..."; "..."]%string HOME in
  (ordered_moves s1 !! state = None ∧ ordered_moves s2 !! state = None ∧
   ordered_moves s1 ≠ ordered_moves s2) ∧
  ∃ n s1' s2',
    search INT_MIN INT_MAX legal_placement state 3 s1 = Done (n, s1') ∧
    search INT_MIN INT_MAX legal_placement state 3 s2 = Done (n, s2') ∧
    best_moves s1' = best_moves s2'.
Proof.
  intros s1 s2 state.
  assert (ordered_moves s1 !! state = None) as H1 by apply lookup_empty.
  assert (ordered_moves s2 !! state = None) as H2
    by by apply lookup_singleton_ne.
  split.
  { split; [done|]. split; [done|]. intros H.
    assert (ordered_moves s2 !! pos_3x3 = None) as H3
      by (rewrite <- H; apply lookup_empty).
    unfold s2, cached_engine in H3. simpl in H3.
    by rewrite lookup_singleton_eq in H3. }
  apply (search_deterministic INT_MIN INT_MAX legal_placement state 3 s1 s2);
    [done|done|done|done|by vm_compute].
Defined.

Lemma expand_children_witness :
  let state := position_of [".."]%string HOME in
  let parent := root (fresh_searcher HOME) in
  let child := Node_new AWAY 1 (mkLocation 0 0 0 1) in
  child ∈ expand legal_placement parent state ∧
  team child = toggle (team parent) ∧ depth child = depth parent + 1.
Proof.
  intros state parent child.
  assert (child ∈ expand legal_placement parent state) as H.
  { assert (expand legal_placement parent state = [child]) as ->
      by by vm_compute.
    apply list_elem_of_here. }
  split; [done|].
  destruct (proj2 (expand_children legal_placement parent state) child H)
    as (_ & _ & Ht & Hd & _).
  by split.
Defined.

(** * Further properties of the code *)

(** ** The re-sort of the cache *)

Lemma Node_ge_total : Total Node_ge.
Proof. intros a b. unfold Node_ge. lia. Qed.
Lemma Node_ge_trans : Transitive Node_ge.
Proof. intros a b c. unfold Node_ge. lia. Qed.
Lemma Node_le_total : Total Node_le.
Proof. intros a b. unfold Node_le. lia. Qed.
Lemma Node_le_trans : Transitive Node_le.
Proof. intros a b c. unfold Node_le. lia. Qed.

(** X1.  [move_order] touches neither the root nor the table; it keeps the
    keys of the cache and reorders each cached list, without adding or
    dropping a node, so that scores descend for Home and ascend for Away. *)
Theorem move_order_sorts (t : Who) (s : Searcher) :
  root (move_order t s) = root s ∧
  best_moves (move_order t s) = best_moves s ∧
  ∀ key,
    match ordered_moves s !! key with
    | Some moves =>
        ∃ sorted, ordered_moves (move_order t s) !! key = Some sorted ∧
                  sorted ≡ₚ moves ∧
                  StronglySorted
                    (λ a b, match t with
                            | HOME => (score b ≤ score a)%Z
                            | AWAY => (score a ≤ score b)%Z
                            end) sorted
    | None => ordered_moves (move_order t s) !! key = None
    end.
Proof.
  split; [done|]. split; [done|]. intros key. unfold move_order. simpl.
  rewrite lookup_fmap. destruct (ordered_moves s !! key) as [moves|]; [|done].
  simpl. eexists. split; [done|]. destruct t.
  - split; [apply merge_sort_Permutation|].
    apply (@StronglySorted_merge_sort _ Node_ge _ Node_ge_trans
             Node_ge_total).
  - split; [apply merge_sort_Permutation|].
    apply (@StronglySorted_merge_sort _ Node_le _ Node_le_trans
             Node_le_total).
Qed.

(** ** Marks on the scratch position *)

Lemma for_cols_rows_visit {A} s (body : Z → Z → A → A) (Q : A → Prop) r c a :
  on_board s r c →
  (∀ a, Q (body r c a)) →
  (∀ r' c' a, on_board s r' c' → Q a → Q (body r' c' a)) →
  Q (for_cols_rows s body a).
Proof.
  intros [Hr Hc] Hest Hpres. unfold for_cols_rows.
  apply (foldl_visit _ Q (λ i, 0 ≤ i < COLS s)%Z c);
    [apply elem_of_seqZ; lia|apply seqZ_range|..].
  - intros a'. simpl.
    apply (foldl_visit _ Q (λ i, 0 ≤ i < ROWS s)%Z r);
      [apply elem_of_seqZ; lia|apply seqZ_range|done|].
    intros a'' r' Hr' Ha''. simpl. by apply Hpres.
  - intros a' c' Hc' Ha'. simpl.
    eapply (foldl_invariant _ Q); [done|apply seqZ_range|].
    intros a'' r' Hr' Ha''. simpl. by apply Hpres.
Qed.

Lemma getCell_mark r c s r' c' :
  getCell r' c' (Evaluator.mark r c s) =
  if decide ((r', c') = (r, c) ∧ getCell r c s = EMPTYSYM)
  then MARKEDSYM else getCell r' c' s.
Proof.
  unfold Evaluator.mark. case_bool_decide as He.
  - rewrite decide_False; [done|]. by intros [_ ?].
  - rewrite getCell_setCell.
    destruct (decide ((r', c') = (r, c))) as [[= -> ->]|Hne].
    + rewrite decide_True by done.
      rewrite getCell_cell in He. by destruct (cell r c s).
    + rewrite decide_False; [done|]. by intros [? _].
Qed.

Lemma cell_mark r c s r' c' :
  cell r' c' (Evaluator.mark r c s) =
  if decide ((r', c') = (r, c) ∧ cell r c s = Some EMPTYSYM)
  then Some MARKEDSYM else cell r' c' s.
Proof.
  unfold Evaluator.mark. case_bool_decide as He.
  - rewrite decide_False; [done|]. intros [_ H]. by apply He, getCell_empty_cell.
  - assert (cell r c s = Some EMPTYSYM) as Hc.
    { apply getCell_empty_cell. by destruct (decide (getCell r c s = EMPTYSYM)). }
    rewrite cell_setCell.
    destruct (decide ((r', c') = (r, c))) as [[= -> ->]|Hne].
    + rewrite decide_True by done. by rewrite Hc.
    + rewrite decide_False; [done|]. by intros [? _].
Qed.

(** X2.  [mark] on a cell of the board changes that cell at most.  On a
    rectangular position, a cell of the board that is empty takes the mark;
    one that is filled or already marked leaves the position as it is; every
    other cell of the board, the frame of the position and the shape of the
    grid stay.  ([mark] reads the cell without a check of the bounds; the
    passes hand it cells of the board only.) *)
Theorem mark_cells (r c : Z) (s : DomineeringState) :
  wf_state s → on_board s r c →
  same_frame s (Evaluator.mark r c s) ∧
  wf_state (Evaluator.mark r c s) ∧
  (cell r c s = Some EMPTYSYM →
   cell r c (Evaluator.mark r c s) = Some MARKEDSYM) ∧
  (cell r c s ≠ Some EMPTYSYM → Evaluator.mark r c s = s) ∧
  ∀ r' c', on_board s r' c' → (r', c') ≠ (r, c) →
    cell r' c' (Evaluator.mark r c s) = cell r' c' s.
Proof.
  intros Hwf Hon.
  split; [apply same_frame_mark|]. split; [by apply wf_mark|].
  split; [|split].
  - intros He. by rewrite cell_mark, decide_True.
  - intros Hne. unfold Evaluator.mark. rewrite bool_decide_eq_true_2; [done|].
    intros He. by apply Hne, getCell_empty_cell.
  - intros r' c' _ Hne. rewrite cell_mark, decide_False; [done|].
    by intros [? _].
Qed.

Lemma grid_empty_mark r c r' c' s :
  Evaluator.grid_empty r c (Evaluator.mark r' c' s) =
  Evaluator.grid_empty r c s && negb (bool_decide ((r, c) = (r', c'))).
Proof.
  rewrite !grid_empty_getCell, getCell_mark.
  destruct (decide _) as [[[= -> ->] He]|Hn].
  - rewrite He. rewrite (bool_decide_eq_true_2 (_ = (r', c'))) by done.
    by rewrite bool_decide_eq_false_2.
  - case_bool_decide as He; [|done]. simpl.
    case_bool_decide as Heq; [|done]. destruct Hn.
    inversion Heq; subst. done.
Qed.

Lemma unmark_idemp ch : unmark (unmark ch) = unmark ch.
Proof.
  unfold unmark. destruct (decide (ch = MARKEDSYM)); [done|].
  by rewrite decide_False.
Qed.

(** X3.  [clear_marks] keeps the frame of the position and turns exactly the
    cells that read as marked into empty ones; on a rectangular grid it is
    idempotent and leaves a position without marks as it is. *)
Theorem clear_marks_spec (s : DomineeringState) :
  same_frame s (Evaluator.clear_marks s) ∧
  (∀ r c, getCell r c (Evaluator.clear_marks s) = unmark (getCell r c s)) ∧
  (wf_state s →
   Evaluator.clear_marks (Evaluator.clear_marks s) = Evaluator.clear_marks s) ∧
  (wf_state s → no_marks s → Evaluator.clear_marks s = s).
Proof.
  split; [apply clear_marks_frame|]. split; [apply clear_marks_cells|]. split.
  - intros Hwf. apply state_ext.
    + by apply wf_clear_marks.
    + by do 2 apply wf_clear_marks.
    + apply clear_marks_frame.
    + intros r c. by rewrite !clear_marks_cells, unmark_idemp.
  - intros Hwf Hno. apply clear_marks_restores; [done..|].
    by apply marked_over_refl.
Qed.

Lemma placable_mark_mono r1 c1 r2 c2 r c s :
  Evaluator.placable r1 c1 r2 c2 s = false →
  Evaluator.placable r1 c1 r2 c2 (Evaluator.mark r c s) = false.
Proof.
  unfold Evaluator.placable. rewrite !grid_empty_mark.
  destruct (Evaluator.grid_empty r1 c1 s), (Evaluator.grid_empty r2 c2 s);
    simpl; try done.
  intros _. apply andb_false_r.
Qed.

Lemma placable_marked r c r2 c2 s :
  Evaluator.placable r c r2 c2
    (Evaluator.mark r2 c2 (Evaluator.mark r c s)) = false.
Proof.
  unfold Evaluator.placable. rewrite !grid_empty_mark.
  rewrite (bool_decide_eq_true_2 ((r, c) = (r, c))) by done. simpl.
  by rewrite andb_false_r.
Qed.

Lemma placable_off_board r c r2 c2 s :
  in_board r c s = false → Evaluator.placable r c r2 c2 s = false.
Proof.
  intros Hin. unfold Evaluator.placable. rewrite grid_empty_getCell.
  by rewrite (getCell_off_board _ _ _ Hin).
Qed.

Lemma same_frame_EvalHomeOpen s : same_frame s (EvalHomeOpen s).2.
Proof.
  apply (for_cols_rows_invariant s _ (λ p, same_frame s p.2)); [done|].
  intros r c [n st] _ Hst. simpl in *.
  destruct (Evaluator.placable _ _ _ _ st); [|done]. simpl.
  eapply same_frame_trans; [done|].
  eapply same_frame_trans; apply same_frame_mark.
Qed.

Lemma same_frame_EvalAwayOpen s : same_frame s (EvalAwayOpen s).2.
Proof.
  apply (for_cols_rows_invariant s _ (λ p, same_frame s p.2)); [done|].
  intros r c [n st] _ Hst. simpl in *.
  destruct (Evaluator.placable _ _ _ _ st); [|done]. simpl.
  eapply same_frame_trans; [done|].
  eapply same_frame_trans; apply same_frame_mark.
Qed.

(** X4.  The two counting passes for open placements are exhaustive: on the
    scratch position [EvalHomeOpen] leaves, no horizontal pair of cells is
    placable any more, and none vertical on the one [EvalAwayOpen] leaves. *)
Theorem open_passes_exhaust (s : DomineeringState) :
  (∀ r c, Evaluator.placable r c r (c + 1) (EvalHomeOpen s).2 = false) ∧
  (∀ r c, Evaluator.placable r c (r + 1) c (EvalAwayOpen s).2 = false).
Proof.
  split; intros r c.
  - destruct (in_board r c s) eqn:Hin.
    + apply in_board_on_board in Hin.
      apply (for_cols_rows_visit s _
               (λ p, Evaluator.placable r c r (c + 1) p.2 = false) r c);
        [done|..].
      * intros [n st]. simpl.
        destruct (Evaluator.placable r c r (c + 1) st) eqn:E; [|done].
        simpl. apply placable_marked.
      * intros r' c' [n st] _ Hst. simpl in *.
        destruct (Evaluator.placable r' c' r' (c' + 1) st); [|done].
        simpl. by do 2 apply placable_mark_mono.
    + apply placable_off_board.
      by rewrite (in_board_frame _ _ s) by apply same_frame_EvalHomeOpen.
  - destruct (in_board r c s) eqn:Hin.
    + apply in_board_on_board in Hin.
      apply (for_cols_rows_visit s _
               (λ p, Evaluator.placable r c (r + 1) c p.2 = false) r c);
        [done|..].
      * intros [n st]. simpl.
        destruct (Evaluator.placable r c (r + 1) c st) eqn:E; [|done].
        simpl. apply placable_marked.
      * intros r' c' [n st] _ Hst. simpl in *.
        destruct (Evaluator.placable r' c' (r' + 1) c' st); [|done].
        simpl. by do 2 apply placable_mark_mono.
    + apply placable_off_board.
      by rewrite (in_board_frame _ _ s) by apply same_frame_EvalAwayOpen.
Qed.

Lemma count_insert (l : list ascii) i old new x :
  l !! i = Some old →
  length (filter (λ ch, ch = x) (<[i:=new]> l)) + indicator (old = x) =
  length (filter (λ ch, ch = x) l) + indicator (new = x).
Proof.
  revert i. induction l as [|y l IH]; intros i Hi; [done|].
  destruct i as [|i]; simpl in *.
  - inversion Hi; subst. rewrite !filter_cons. unfold indicator.
    destruct (decide (new = x)), (decide (old = x)); simpl; lia.
  - specialize (IH i Hi). rewrite !filter_cons.
    destruct (decide (y = x)); simpl; lia.
Qed.

Lemma sum_alter {A} (f : A → nat) (g : A → A) (rows : list A) i row :
  rows !! i = Some row →
  sum_list (f <$> alter g i rows) + f row = sum_list (f <$> rows) + f (g row).
Proof.
  revert i. induction rows as [|y rows IH]; intros i Hi; [done|].
  destruct i as [|i]; simpl in *.
  - inversion Hi; subst. lia.
  - specialize (IH i Hi). unfold fmap, alter in IH. lia.
Qed.

Lemma count_setCell r c s old new x :
  old ≠ "000"%char → getCell r c s = old →
  count_cells x (setCell r c new s) + indicator (old = x) =
  count_cells x s + indicator (new = x).
Proof.
  intros Hne Hget.
  destruct (getCell_lookup _ _ _ _ Hne Hget) as (Hin & row & Hrow & Hc).
  unfold count_cells, setCell. rewrite Hin. simpl.
  pose proof (sum_alter (λ row, length (filter (λ ch, ch = x) row))
                (<[Z.to_nat c := new]>) (board s) (Z.to_nat r) row Hrow) as H1.
  pose proof (count_insert row (Z.to_nat c) old new x Hc) as H2.
  simpl in H1. lia.
Qed.

Lemma EMPTYSYM_not_MARKEDSYM : EMPTYSYM ≠ MARKEDSYM.
Proof. done. Qed.

Lemma count_mark_empty r c s :
  getCell r c s = EMPTYSYM →
  count_cells EMPTYSYM (Evaluator.mark r c s) + 1 = count_cells EMPTYSYM s ∧
  count_cells MARKEDSYM (Evaluator.mark r c s) = count_cells MARKEDSYM s + 1.
Proof.
  intros He. unfold Evaluator.mark. rewrite bool_decide_eq_false_2 by auto.
  pose proof (count_setCell r c s EMPTYSYM MARKEDSYM EMPTYSYM
                EMPTYSYM_not_NUL He) as H1.
  pose proof (count_setCell r c s EMPTYSYM MARKEDSYM MARKEDSYM
                EMPTYSYM_not_NUL He) as H2.
  unfold indicator in *.
  rewrite decide_True in H1 by done.
  rewrite decide_False in H1 by done.
  rewrite decide_False in H2 by done.
  rewrite decide_True in H2 by done. lia.
Qed.

(** A counted pair takes two empty cells of the scratch position. *)
Lemma count_mark_pair r c r2 c2 s :
  (r2, c2) ≠ (r, c) →
  Evaluator.placable r c r2 c2 s = true →
  count_cells EMPTYSYM (Evaluator.mark r2 c2 (Evaluator.mark r c s)) + 2
    = count_cells EMPTYSYM s ∧
  count_cells MARKEDSYM (Evaluator.mark r2 c2 (Evaluator.mark r c s))
    = count_cells MARKEDSYM s + 2.
Proof.
  intros Hne Hp. unfold Evaluator.placable in Hp.
  rewrite !grid_empty_getCell in Hp.
  apply andb_true_iff in Hp as [H1%bool_decide_eq_true H2%bool_decide_eq_true].
  destruct (count_mark_empty r c s H1) as [Ha Hb].
  assert (getCell r2 c2 (Evaluator.mark r c s) = EMPTYSYM) as H2'.
  { rewrite getCell_mark. rewrite decide_False; [done|]. by intros [? _]. }
  destruct (count_mark_empty r2 c2 _ H2') as [Hc Hd]. lia.
Qed.

Lemma reserved_for_home_placable r1 c1 r2 c2 s :
  Evaluator.reserved_for_home r1 c1 r2 c2 s = true →
  Evaluator.placable r1 c1 r2 c2 s = true.
Proof.
  unfold Evaluator.reserved_for_home.
  by destruct (Evaluator.placable r1 c1 r2 c2 s).
Qed.

Lemma reserved_for_away_placable r1 c1 r2 c2 s :
  Evaluator.reserved_for_away r1 c1 r2 c2 s = true →
  Evaluator.placable r1 c1 r2 c2 s = true.
Proof.
  unfold Evaluator.reserved_for_away.
  by destruct (Evaluator.placable r1 c1 r2 c2 s).
Qed.

Ltac pass_accounting lem imp :=
  apply (lem _ _ _ (pass_accounts _));
  [unfold pass_accounts; simpl; lia|];
  let Hacc := fresh "Hacc" in
  intros ? ? [? ?] _ Hacc; simpl in *;
  match goal with |- context [if ?b then _ else _] =>
    let E := fresh "Etest" in
    destruct b eqn:E; [|exact Hacc];
    try apply imp in E;
    apply count_mark_pair in E as [? ?];
    [destruct Hacc as (? & ? & ?); unfold pass_accounts in *; simpl in *; lia
    |intros [=]; lia]
  end.

Lemma accounts_EvalHomeReserved s : pass_accounts s (EvalHomeReserved s).
Proof.
  pass_accounting @for_rows_cols_invariant reserved_for_home_placable.
Qed.

Lemma accounts_EvalHomeOpen s : pass_accounts s (EvalHomeOpen s).
Proof.
  pass_accounting @for_cols_rows_invariant reserved_for_home_placable.
Qed.

Lemma accounts_EvalAwayReserved s : pass_accounts s (EvalAwayReserved s).
Proof.
  pass_accounting @for_cols_rows_invariant reserved_for_away_placable.
Qed.

Lemma accounts_EvalAwayOpen s : pass_accounts s (EvalAwayOpen s).
Proof.
  pass_accounting @for_cols_rows_invariant reserved_for_away_placable.
Qed.

(** X5.  No double counting.  Each of the four counting passes returns a
    count that is not negative, and every pair it counts takes two empty
    cells of the scratch position and turns them into marks: twice the count
    plus the empty cells left is the number of empty cells the pass
    started from. *)
Theorem passes_count_disjoint_pairs (s : DomineeringState) :
  pass_accounts s (EvalHomeReserved s) ∧
  pass_accounts s (EvalHomeOpen s) ∧
  pass_accounts s (EvalAwayReserved s) ∧
  pass_accounts s (EvalAwayOpen s).
Proof.
  split; [apply accounts_EvalHomeReserved|].
  split; [apply accounts_EvalHomeOpen|].
  split; [apply accounts_EvalAwayReserved|apply accounts_EvalAwayOpen].
Qed.

Lemma free_cells_pass s p : pass_accounts s p → free_cells p.2 = free_cells s.
Proof. intros (_ & H1 & H2). unfold free_cells. lia. Qed.

Lemma free_cells_clear_marks s :
  free_cells (Evaluator.clear_marks s) = free_cells s.
Proof.
  unfold Evaluator.clear_marks.
  apply (for_rows_cols_invariant s _ (λ st, free_cells st = free_cells s));
    [done|].
  intros r c st _ Hst. case_bool_decide as Hm; [|done].
  rewrite <- Hst. unfold free_cells.
  assert (MARKEDSYM ≠ "000"%char) as Hne by done.
  pose proof (count_setCell r c st MARKEDSYM EMPTYSYM EMPTYSYM Hne Hm) as H1.
  pose proof (count_setCell r c st MARKEDSYM EMPTYSYM MARKEDSYM Hne Hm) as H2.
  unfold indicator in *.
  rewrite decide_False in H1 by done. rewrite decide_True in H1 by done.
  rewrite decide_True in H2 by done. rewrite decide_False in H2 by done.
  lia.
Qed.

(** The sum [evaluate] computes, pass by pass. *)
Lemma evaluate_passes state :
  evaluate state =
    (2 * (EvalHomeReserved state).1 +
     (EvalHomeOpen (EvalHomeReserved state).2).1 -
     2 * (EvalAwayReserved
            (Evaluator.clear_marks
               (EvalHomeOpen (EvalHomeReserved state).2).2)).1 -
     (EvalAwayOpen
        (EvalAwayReserved
           (Evaluator.clear_marks
              (EvalHomeOpen (EvalHomeReserved state).2).2)).2).1)%Z.
Proof.
  unfold evaluate, evaluate_run, evaluators. cbn [foldl].
  unfold evaluate_step, ClearMarks. cbn [fst snd].
  destruct (EvalHomeReserved state) as [hr s1]; cbn [fst snd].
  destruct (EvalHomeOpen s1) as [ho s2]; cbn [fst snd].
  destruct (EvalAwayReserved _) as [ar s4]; cbn [fst snd].
  destruct (EvalAwayOpen s4) as [ao s5]; cbn [fst snd].
  lia.
Qed.

Lemma count_cells_two_le_length (row : list ascii) :
  length (filter (λ ch, ch = EMPTYSYM) row) +
  length (filter (λ ch, ch = MARKEDSYM) row) ≤ length row.
Proof.
  induction row as [|ch row IH]; [done|].
  rewrite !filter_cons.
  destruct (decide (ch = EMPTYSYM)) as [->|];
    [rewrite decide_False by done|destruct (decide (ch = MARKEDSYM))];
    simpl; lia.
Qed.

Lemma free_cells_le_area s :
  wf_state s → (0 ≤ ROWS s)%Z → (0 ≤ COLS s)%Z →
  (Z.of_nat (free_cells s) ≤ ROWS s * COLS s)%Z.
Proof.
  intros [Hlen Hrows] HR HC. unfold free_cells, count_cells.
  assert (∀ rows : list (list ascii),
            Forall (λ row, length row = Z.to_nat (COLS s)) rows →
            sum_list ((λ row, length (filter (λ ch, ch = EMPTYSYM) row))
                        <$> rows) +
            sum_list ((λ row, length (filter (λ ch, ch = MARKEDSYM) row))
                        <$> rows)
            ≤ length rows * Z.to_nat (COLS s)) as H.
  { induction 1 as [|row rows Hrow _ IH]; [done|]. simpl.
    pose proof (count_cells_two_le_length row). unfold fmap in IH. lia. }
  specialize (H _ Hrows). rewrite Hlen in H. nia.
Qed.

(** X6.  Bounded evaluation.  The score of [evaluate] lies between minus
    the number of free cells of the position (empty or marked) and the number
    of its empty cells; on a rectangular grid its magnitude is at most the
    number of cells, [ROWS * COLS]. *)
Theorem evaluate_bounded (s : DomineeringState) :
  (- Z.of_nat (free_cells s) ≤ evaluate s ≤ Z.of_nat (count_cells EMPTYSYM s))%Z
  ∧ (wf_state s → (0 ≤ ROWS s)%Z → (0 ≤ COLS s)%Z →
     - (ROWS s * COLS s) ≤ evaluate s ≤ ROWS s * COLS s)%Z.
Proof.
  assert (- Z.of_nat (free_cells s) ≤ evaluate s
          ≤ Z.of_nat (count_cells EMPTYSYM s))%Z as Hb.
  { rewrite evaluate_passes.
    pose proof (accounts_EvalHomeReserved s) as H1.
    pose proof (accounts_EvalHomeOpen (EvalHomeReserved s).2) as H2.
    set (cleared := Evaluator.clear_marks _).
    pose proof (accounts_EvalAwayReserved cleared) as H3.
    pose proof (accounts_EvalAwayOpen (EvalAwayReserved cleared).2) as H4.
    assert (free_cells cleared = free_cells s) as Hfree.
    { subst cleared. rewrite free_cells_clear_marks.
      rewrite (free_cells_pass _ _ H2). apply (free_cells_pass _ _ H1). }
    destruct H1 as (? & ? & _), H2 as (? & ? & _),
             H3 as (? & ? & _), H4 as (? & ? & _).
    unfold free_cells in *. lia. }
  split; [done|]. intros Hwf HR HC.
  pose proof (free_cells_le_area s Hwf HR HC). unfold free_cells in *. lia.
Qed.

(** ** The recursion and the table of best moves *)

Tactic Notation "unfold_search_children" := cbn [search_children].

Section MoreProperties.

Variables NEG_INF POS_INF : Z.
Variable moveOK : DomineeringState → Location → bool.

Local Abbreviation set_as_terminal := (set_as_terminal NEG_INF POS_INF).
Local Abbreviation expand := (expand moveOK).
Local Abbreviation children_of := (children_of moveOK).
Local Abbreviation search_children := (search_children NEG_INF POS_INF).
Local Abbreviation search_under := (search_under NEG_INF POS_INF moveOK).
Local Abbreviation search := (search NEG_INF POS_INF moveOK).

(** A property of the engine that the writes of the loop at the depth of the
    parent and the recursive calls keep is kept by the loop. *)
Lemma search_children_invariant_at (Inv : Searcher → Prop)
    rec parent current_state children ab next_state s s' next_state' :
  (∀ n s s1, Inv s → store_best (depth parent) n s = Done s1 → Inv s1) →
  (∀ child v s, Inv s →
     Inv (push_ordered current_state (set_score v child) s)) →
  (∀ child ab st s s1, child ∈ children → Inv s →
     rec child ab st s = Done s1 → Inv s1) →
  Inv s →
  search_children rec parent current_state children ab next_state s
    = Done (s', next_state') →
  Inv s'.
Proof.
  intros Hstore Hpush. revert ab next_state s.
  induction children as [|child rest IH];
    intros ab next_state s Hrec Hs Hrun; simpl in Hrun.
  { by inversion Hrun; subst. }
  assert (∀ ab next_state s,
            Inv s →
            search_children rec parent current_state rest ab next_state s
              = Done (s', next_state') → Inv s') as IH'.
  { intros ab0 ns0 s0. apply IH.
    intros ch ab1 st s1 s2 Hch. apply Hrec. by right. }
  destruct (rec child ab (tap child next_state) s) as [s1| |] eqn:Erec;
    try done.
  assert (Inv s1) as Hs1.
  { eapply Hrec; [|done..]. by left. }
  destruct (best_moves s1 !! (depth parent + 1)) as [next_move|]; try done.
  destruct (is_terminal next_move).
  { destruct (store_best _ _ s1) as [s2| |] eqn:Est; try done.
    inversion Hrun; subst. by eapply Hstore. }
  set (s2 := if bool_decide (depth parent = 2) then _ else s1) in Hrun.
  assert (Inv s2) as Hs2.
  { subst s2. case_bool_decide; [|done]. by apply Hpush. }
  clearbody s2.
  destruct (best_moves s2 !! depth parent) as [current_best|]; try done.
  match type of Hrun with
  | (if ?b then _ else _) = _ => destruct b
  end.
  - destruct (store_best (depth parent) _ s2) as [s3| |] eqn:Est; try done.
    assert (Inv s3) by by eapply Hstore.
    destruct (can_prune _ _ _); [by inversion Hrun; subst|].
    by eapply IH'.
  - by eapply IH'.
Qed.

(** A call leaves the entries of the table above its own depth alone. *)
Lemma search_under_table_above fuel parent ab state depth_limit s s' :
  search_under fuel parent ab state depth_limit s = Done s' →
  ∀ i, i < depth parent → best_moves s' !! i = best_moves s !! i.
Proof.
  revert parent ab state s s'.
  induction fuel as [|fuel IH]; intros parent ab state s s' Hrun i Hi; [done|].
  unfold_search_under in Hrun.
  assert (∀ n s0 s1, store_best (depth parent) n s0 = Done s1 →
            best_moves s1 !! i = best_moves s0 !! i) as Hstore.
  { intros n s0 s1 [-> _]%store_best_Done. simpl.
    apply list_lookup_insert_ne. lia. }
  case_bool_decide; [by eapply Hstore|].
  destruct (children_of parent state s) as [children s0] eqn:Hch.
  assert (best_moves s0 = best_moves s ∧
          Forall (λ child, depth parent ≤ depth child) children)
    as [Hb Hdepths].
  { unfold_children_of in Hch.
    pose proof (expand_depth moveOK parent state) as He.
    assert (Forall (λ child, depth parent ≤ depth child)
              (expand parent state)) as He'.
    { eapply Forall_impl; [exact He|]. intros; simpl in *; lia. }
    destruct (ordered_moves s !! state); [case_bool_decide|];
      inversion Hch; subst; (split; [done|]); try done. lia. }
  rewrite <- Hb. clear Hch Hb.
  destruct (best_moves s0 !! depth parent) as [current_best|]; [|done].
  destruct children as [|child rest]; [by eapply Hstore|].
  destruct (store_best _ _ s0) as [s1| |] eqn:Est; try done.
  apply Hstore in Est. rewrite <- Est.
  match type of Hrun with
  | match ?run with _ => _ end = _ =>
      destruct run as [[s2 ns]| |] eqn:Eloop; try done
  end.
  inversion Hrun; subst.
  eapply (search_children_invariant_at
            (λ s0, best_moves s0 !! i = best_moves s1 !! i))
    in Eloop; [done|..|done].
  - intros n s2 s3 <- Hst. by eapply Hstore.
  - by intros ch v s2 <-.
  - intros ch ab0 st s2 s3 Hin <- Hrun0. eapply IH; [done|].
    rewrite Forall_forall in Hdepths. specialize (Hdepths ch Hin). lia.
Qed.

(** X7.  A call of [search_under] that returns has kept the root of the
    engine and the size of the table, and has left every entry of the table
    above the depth of its node as it was: the results of the shallower
    plies are never overwritten from below. *)
Theorem search_under_keeps_shallower fuel parent ab state depth_limit s s' :
  search_under fuel parent ab state depth_limit s = Done s' →
  root s' = root s ∧
  length (best_moves s') = length (best_moves s) ∧
  ∀ i, i < depth parent → best_moves s' !! i = best_moves s !! i.
Proof.
  intros Hrun.
  destruct (search_under_frame _ _ _ _ _ _ _ _ _ _ Hrun) as [Hr Hl].
  split; [done|]. split; [done|]. by eapply search_under_table_above.
Qed.

(** The step of [search_under] at a root that consumes a cached ordering. *)
Lemma search_under_cached_step fuel parent ab state depth_limit s
    child rest current_best :
  depth parent = 0 → 0 < depth_limit →
  ordered_moves s !! state = Some (child :: rest) →
  best_moves s !! 0 = Some current_best →
  search_under (S fuel) parent ab state depth_limit s =
    match search_children
            (λ child ab st s, search_under fuel child ab st depth_limit s)
            parent state (child :: rest) ab (togglePlayer state)
            (mkSearcher (root s)
               (<[0 := set_score (match team parent with
                                  | HOME => NEG_INF
                                  | AWAY => POS_INF
                                  end) current_best]> (best_moves s))
               ∅) with
    | Done (s, _) => Done s
    | Fault => Fault
    | OutOfFuel => OutOfFuel
    end.
Proof.
  intros Hd HL Hhit Hcur. unfold_search_under.
  rewrite bool_decide_eq_false_2 by lia.
  rewrite (children_of_cached moveOK parent state s (child :: rest)) by done.
  unfold store_best. cbn [clear_ordered best_moves root ordered_moves].
  by rewrite !Hd, !Hcur.
Qed.

(** The horizon case of a node that lies beyond the table. *)
Lemma search_under_beyond_table fuel parent ab state depth_limit s :
  depth_limit ≤ depth parent → length (best_moves s) ≤ depth parent →
  search_under (S fuel) parent ab state depth_limit s = Fault.
Proof.
  intros HL Hlen. unfold_search_under. rewrite bool_decide_eq_true_2 by done.
  unfold store_best. by rewrite (lookup_ge_None_2 _ _ Hlen).
Qed.

(** X8.  Out of range on consumption.  When the root consumes a cached
    ordering whose first node lies deeper than the depth limit (cached nodes
    carry depth 3, so with a limit of 1 or 2), the horizon case of that node
    writes [best_moves] beyond its [depth_limit + 1] entries. *)
Theorem search_consuming_faults state depth_limit s n rest :
  depth (root s) = 0 → 0 < depth_limit →
  ordered_moves s !! state = Some (n :: rest) →
  depth_limit < depth n →
  search state depth_limit s = Fault.
Proof.
  intros Hd HL Hhit Hn. unfold_search.
  pose proof (unsigned_succ_le depth_limit) as Hsize.
  destruct (unsigned_succ depth_limit) as [|size].
  { unfold_search_under. cbn [root]. rewrite bool_decide_eq_false_2 by lia.
    by rewrite (children_of_cached moveOK (root s) state _ (n :: rest)). }
  rewrite (search_under_cached_step _ _ _ _ _ _ n rest Node_default);
    [|done|done|done|done].
  unfold_search_children.
  destruct depth_limit as [|L]; [lia|].
  rewrite search_under_beyond_table; [done|lia|].
  cbn [best_moves]. rewrite length_insert, length_replicate. lia.
Qed.

(** Once the best slot of the root holds a node scored like the untouched
    entry at depth 1, no further cached child replaces it. *)
Lemma search_children_stale depth_limit parent state children ab next_state
    s current_best :
  depth parent = 0 → 3 ≤ depth_limit →
  Forall (λ n, depth n = 3) children →
  length (best_moves s) = depth_limit + 1 →
  best_moves s !! 1 = Some Node_default →
  best_moves s !! 0 = Some current_best →
  is_unset current_best = false →
  score current_best = score Node_default →
  ∃ s' next_state',
    search_children
      (λ child ab st s, search_under depth_limit child ab st depth_limit s)
      parent state children ab next_state s = Done (s', next_state') ∧
    best_moves s' !! 0 = Some current_best ∧
    ordered_moves s' = ordered_moves s.
Proof.
  intros Hd HL Hdepths. revert ab next_state s.
  induction Hdepths as [|child rest Hchild _ IH];
    intros ab next_state s Hlen H1 H0 Hset Hscore.
  { by eexists _, _. }
  unfold_search_children.
  destruct (search_under_done NEG_INF POS_INF moveOK depth_limit child ab
              (tap child next_state) depth_limit s)
    as (s1 & Hrun & Hlen1); [lia|lia|done|left; lia|].
  rewrite Hrun.
  pose proof (search_under_table_above _ _ _ _ _ _ _ Hrun) as Habove.
  assert (ordered_moves s1 = ordered_moves s) as Hcache
    by (eapply search_under_cache_frame; [|exact Hrun]; lia).
  rewrite Hd. cbn [Nat.add].
  rewrite (Habove 1) by lia. rewrite H1. cbn [is_terminal Node_default].
  rewrite (bool_decide_eq_false_2 (0 = 2)) by lia.
  rewrite (Habove 0) by lia. rewrite H0.
  rewrite Hset, Hscore.
  replace (match team parent with
           | HOME => bool_decide (score Node_default < score Node_default)%Z
           | AWAY => bool_decide (score Node_default < score Node_default)%Z
           end || false) with false.
  2:{ destruct (team parent); by rewrite bool_decide_eq_false_2 by lia. }
  destruct (IH ab (untap child (tap child next_state)) s1)
    as (s' & ns' & Hloop & Hbest & Hc); [done|..|done|done|].
  { by rewrite (Habove 1) by lia. }
  { by rewrite (Habove 0) by lia. }
  eexists _, _. split; [done|]. split; [done|]. congruence.
Qed.

(** X9.  A search that consumes a cached ordering does not use what it
    computes below the cached nodes.  The cached nodes carry depth 3, so
    their subtrees are recorded from entry 3 of the table on, while the loop
    of the root reads entry 1, which nothing has written.  With a depth
    limit of 3 or more, below [UINT_MAX] where the size of the table wraps,
    the search returns the first cached node, with the score of an untouched
    entry, whatever the position is worth, and leaves the cache empty. *)
Theorem search_consuming_returns_first state depth_limit s n rest :
  depth (root s) = 0 → 3 ≤ depth_limit →
  (Z.of_nat depth_limit < UINT_MAX)%Z →
  ordered_moves s !! state = Some (n :: rest) →
  Forall (λ n, depth n = 3) (n :: rest) →
  (NEG_INF < score Node_default < POS_INF)%Z →
  ∃ s', search state depth_limit s
          = Done (set_score (score Node_default) n, s') ∧
        ordered_moves s' = ∅.
Proof.
  intros Hd HL Hmax Hhit Hdepths Hinf.
  assert (NEG_INF < 0 < POS_INF)%Z as Hinf0 by exact Hinf.
  apply Forall_cons in Hdepths as [Hn Hrest].
  unfold_search. rewrite (unsigned_succ_below _ Hmax).
  rewrite (search_under_cached_step _ _ _ _ _ _ n rest Node_default);
    [|done|lia|done|].
  2:{ cbn [best_moves]. apply lookup_replicate_2. lia. }
  cbn [root best_moves ordered_moves].
  set (s0 := mkSearcher _ _ ∅).
  assert (length (best_moves s0) = depth_limit + 1) as Hlen0.
  { subst s0. cbn [best_moves]. by rewrite length_insert, length_replicate. }
  assert (best_moves s0 !! 1 = Some Node_default) as H01.
  { subst s0. cbn [best_moves]. rewrite list_lookup_insert_ne by lia.
    apply lookup_replicate_2. lia. }
  assert (best_moves s0 !! 0 =
          Some (set_score (match team (root s) with
                           | HOME => NEG_INF
                           | AWAY => POS_INF
                           end) Node_default)) as H00.
  { subst s0. cbn [best_moves]. apply list_lookup_insert_eq.
    rewrite length_replicate. lia. }
  assert (ordered_moves s0 = ∅) as Hc0 by done.
  clearbody s0.
  unfold_search_children.
  destruct (search_under_done NEG_INF POS_INF moveOK depth_limit n
              (mkAlphaBeta NEG_INF POS_INF)
              (tap n (togglePlayer state)) depth_limit s0)
    as (s1 & Hrun & Hlen1); [lia|lia|done|left; lia|].
  rewrite Hrun.
  pose proof (search_under_table_above _ _ _ _ _ _ _ Hrun) as Habove.
  assert (ordered_moves s1 = ordered_moves s0) as Hcache
    by (eapply search_under_cache_frame; [|exact Hrun]; lia).
  rewrite Hd. cbn [Nat.add].
  rewrite (Habove 1) by lia. rewrite H01. cbn [is_terminal Node_default].
  rewrite (bool_decide_eq_false_2 (0 = 2)) by lia.
  rewrite (Habove 0) by lia. rewrite H00.
  replace (match team (root s) with
           | HOME => bool_decide
                       (score (set_score match team (root s) with
                                         | HOME => NEG_INF
                                         | AWAY => POS_INF
                                         end Node_default)
                        < score Node_default)%Z
           | AWAY => bool_decide
                       (score Node_default
                        < score (set_score match team (root s) with
                                           | HOME => NEG_INF
                                           | AWAY => POS_INF
                                           end Node_default))%Z
           end || is_unset (set_score match team (root s) with
                                      | HOME => NEG_INF
                                      | AWAY => POS_INF
                                      end Node_default)) with true.
  2:{ destruct (team (root s)); simpl;
        by rewrite bool_decide_eq_true_2 by lia. }
  unfold store_best.
  destruct (lookup_lt_is_Some_2 (best_moves s1) 0) as [cur1 ->]; [lia|].
  replace (can_prune (score Node_default) (team (root s))
             (update_if_needed (score Node_default) (team (root s))
                (mkAlphaBeta NEG_INF POS_INF))) with false.
  2:{ unfold can_prune, update_if_needed.
      destruct (team (root s)); simpl.
      - rewrite (bool_decide_eq_true_2 (NEG_INF < 0)%Z) by lia.
        simpl. rewrite bool_decide_eq_false_2; [done|]. lia.
      - rewrite (bool_decide_eq_true_2 (0 < POS_INF)%Z) by lia.
        simpl. rewrite bool_decide_eq_false_2; [done|]. lia. }
  match goal with
  | |- context [search_children ?rec ?p ?cs rest ?ab0 ?ns ?s2] =>
      destruct (search_children_stale depth_limit p cs rest ab0 ns s2
                  (set_score (score Node_default) n))
        as (s' & ns' & -> & Hbest & Hc)
  end; [done|done|done|..].
  { cbn [best_moves]. by rewrite length_insert. }
  { cbn [best_moves]. rewrite list_lookup_insert_ne by lia.
    by rewrite (Habove 1) by lia. }
  { cbn [best_moves]. apply list_lookup_insert_eq. lia. }
  { done. }
  { done. }
  destruct (best_moves s') as [|front tl] eqn:Eb; [done|].
  simpl in Hbest. inversion Hbest; subst front.
  eexists. split; [done|]. unfold move_order. cbn [ordered_moves].
  rewrite Hc. cbn [ordered_moves]. rewrite Hcache, Hc0. apply fmap_empty.
Qed.

End MoreProperties.

Section Generator.

Variable moveOK : DomineeringState → Location → bool.

Lemma bind_const_length {A B} (f : A → list B) (l : list A) k :
  (∀ x, length (f x) = k) → length (l ≫= f) = length l * k.
Proof.
  intros Hf. induction l as [|x l IH]; [done|].
  change ((x :: l) ≫= f) with (f x ++ (l ≫= f)).
  rewrite length_app, Hf, IH. simpl. lia.
Qed.

Lemma placements_length t state :
  length (placements t state) = Z.to_nat (ROWS state) * Z.to_nat (COLS state).
Proof.
  unfold placements.
  rewrite (bind_const_length _ _ (Z.to_nat (COLS state))).
  - by rewrite length_seqZ.
  - intros r. rewrite (bind_const_length _ _ 1); [|done].
    rewrite length_seqZ. lia.
Qed.

Lemma placements_NoDup t state : NoDup (placements t state).
Proof.
  unfold placements. apply NoDup_bind; [| |apply NoDup_seqZ].
  - intros x1 x2 m _ _ (c & Hm1 & _)%list_elem_of_bind
                       (c' & Hm2 & _)%list_elem_of_bind.
    apply list_elem_of_singleton in Hm1, Hm2. subst m.
    destruct t; by inversion Hm2.
  - intros r _. apply NoDup_bind; [| |apply NoDup_seqZ].
    + intros c c' m _ _ Hm1%list_elem_of_singleton Hm2%list_elem_of_singleton.
      subst m. destruct t; by inversion Hm2.
    + intros c _. apply NoDup_singleton.
Qed.

Lemma parent_move_Node_new t d (l : list Location) :
  parent_move <$> (Node_new t d <$> l) = l.
Proof. induction l as [|m l IH]; [done|]. simpl. by f_equal. Qed.

(** X10.  [expand] never generates a placement twice, and never more
    children than the board has cells. *)
Theorem expand_distinct_bounded parent state :
  NoDup (parent_move <$> expand moveOK parent state) ∧
  length (expand moveOK parent state)
    ≤ Z.to_nat (ROWS state) * Z.to_nat (COLS state).
Proof.
  rewrite expand_placements. split.
  - rewrite parent_move_Node_new. apply NoDup_filter, placements_NoDup.
  - rewrite length_fmap. etrans; [apply length_filter|].
    by rewrite placements_length.
Qed.

(** The double loop of the generators, for a side [t] and a constructor [mk]
    of the children. *)
Lemma generator_loop (t : Who) (mk : Location → Node) state :
  for_rows_cols state
    (λ r1 c1 children,
       let r2 := match t with HOME => r1 | AWAY => (r1 + 1)%Z end in
       let c2 := match t with HOME => (c1 + 1)%Z | AWAY => c1 end in
       let m := mkLocation r1 c1 r2 c2 in
       if moveOK state m then children ++ [mk m] else children)
    [] =
  mk <$> filter (λ m, moveOK state m) (placements t state).
Proof.
  unfold for_rows_cols, placements.
  assert (∀ rows acc,
    foldl (λ acc r, foldl (λ acc c,
        if moveOK state (mkLocation r c
              (match t with HOME => r | AWAY => (r + 1)%Z end)
              (match t with HOME => (c + 1)%Z | AWAY => c end))
        then acc ++ [mk (mkLocation r c
              (match t with HOME => r | AWAY => (r + 1)%Z end)
              (match t with HOME => (c + 1)%Z | AWAY => c end))]
        else acc) acc (seqZ 0 (COLS state))) acc rows =
    acc ++ (mk <$> filter (λ m, moveOK state m)
              (r ← rows; c ← seqZ 0 (COLS state); [placement_at t r c])))
    as H.
  { induction rows as [|r rows IH]; intros acc; simpl.
    { by rewrite app_nil_r. }
    rewrite IH. rewrite filter_app, fmap_app, app_assoc. f_equal.
    generalize (seqZ 0 (COLS state)). clear. intros cols. revert acc.
    induction cols as [|c cols IH]; intros acc; simpl.
    { by rewrite app_nil_r. }
    rewrite IH. rewrite filter_cons.
    replace (placement_at t r c) with
      (mkLocation r c
              (match t with HOME => r | AWAY => (r + 1)%Z end)
              (match t with HOME => (c + 1)%Z | AWAY => c end))
      by by destruct t.
    destruct (moveOK state _) eqn:E.
    - rewrite decide_True by done. simpl. by rewrite <- app_assoc.
    - by rewrite decide_False by (by intros []). }
  apply (H (seqZ 0 (ROWS state)) []).
Qed.

Lemma legacy_expand_placements parent state :
  Legacy.expand moveOK parent state =
  Node_new (who state) (depth parent + 1) <$>
    filter (λ m, moveOK state m) (placements (who state) state).
Proof. apply generator_loop. Qed.

Lemma retag_Node_new t d (l : list Location) :
  retag <$> (Node_new t d <$> l) = Node_new (toggle t) d <$> l.
Proof. induction l as [|m l IH]; [done|]. simpl. by f_equal. Qed.

Lemma toggle_toggle t : toggle (toggle t) = t.
Proof. by destruct t. Qed.

(** X11.  The two revisions of the generator.  The older [expand] takes the
    side to move from the position and tags the children with it; when the
    parent of the newer [expand] belongs to the side to move, both generate
    the same placements in the same order at the same depth, and the newer
    children are the older ones with the tag of the other side.  Both
    revisions of [tap] then write the symbol of the side that placed. *)
Theorem expand_revisions parent state :
  (∀ child, child ∈ Legacy.expand moveOK parent state →
     team child = who state ∧ depth child = depth parent + 1 ∧
     orientation_side (parent_move child) = who state ∧
     moveOK state (parent_move child) = true) ∧
  (team parent = who state →
   expand moveOK parent state = retag <$> Legacy.expand moveOK parent state) ∧
  (∀ child st, tap (retag child) st = Legacy.tap child st).
Proof.
  split; [|split].
  - intros child. rewrite legacy_expand_placements.
    intros (m & -> & Hm)%list_elem_of_fmap.
    apply list_elem_of_filter in Hm as [Hok Hm].
    split; [done|]. split; [done|]. split; [|by apply Is_true_eq_true].
    unfold placements in Hm.
    apply list_elem_of_bind in Hm as (r & Hm & _).
    apply list_elem_of_bind in Hm as (c & Hm & _).
    apply list_elem_of_singleton in Hm as ->.
    unfold orientation_side, placement_at. destruct (who state); simpl.
    + by rewrite bool_decide_eq_true_2.
    + rewrite bool_decide_eq_false_2; [done|lia].
  - intros Ht. rewrite expand_placements, legacy_expand_placements.
    rewrite retag_Node_new. by rewrite Ht.
  - intros child st. unfold tap, Legacy.tap, retag. simpl.
    by destruct (team child).
Qed.

End Generator.

(** ** The search one ply deep *)

Lemma pick_best_origin t value cur children :
  pick_best t value cur children = cur ∨
  ∃ child, child ∈ children ∧
           pick_best t value cur children = set_score (value child) child.
Proof.
  revert cur. induction children as [|child rest IH]; intros cur; simpl.
  { by left. }
  match goal with |- context [if ?b then _ else _] => destruct b end.
  - destruct (IH (set_score (value child) child)) as [->|(ch & Hin & ->)].
    + right. exists child. split; [by left|done].
    + right. exists ch. split; [by right|done].
  - destruct (IH cur) as [->|(ch & Hin & ->)]; [by left|].
    right. exists ch. split; [by right|done].
Qed.

Lemma pick_best_optimal t value cur children :
  match t with
  | HOME => (score cur ≤ score (pick_best t value cur children))%Z ∧
            ∀ child, child ∈ children →
              (value child ≤ score (pick_best t value cur children))%Z
  | AWAY => (score (pick_best t value cur children) ≤ score cur)%Z ∧
            ∀ child, child ∈ children →
              (score (pick_best t value cur children) ≤ value child)%Z
  end.
Proof.
  revert cur. induction children as [|child rest IH]; intros cur.
  { destruct t; simpl; (split; [lia|]); by intros ? ?%elem_of_nil. }
  destruct t; simpl.
  - case_bool_decide as Hb.
    + destruct (IH (set_score (value child) child)) as [H1 H2]. simpl in H1.
      split; [lia|]. intros ch [->|Hin]%elem_of_cons; [done|by apply H2].
    + destruct (IH cur) as [H1 H2].
      split; [done|]. intros ch [->|Hin]%elem_of_cons; [lia|by apply H2].
  - case_bool_decide as Hb.
    + destruct (IH (set_score (value child) child)) as [H1 H2]. simpl in H1.
      split; [lia|]. intros ch [->|Hin]%elem_of_cons; [done|by apply H2].
    + destruct (IH cur) as [H1 H2].
      split; [done|]. intros ch [->|Hin]%elem_of_cons; [lia|by apply H2].
Qed.

Section OnePly.

Variables NEG_INF POS_INF : Z.
Variable moveOK : DomineeringState → Location → bool.

Local Abbreviation search_children := (search_children NEG_INF POS_INF).
Local Abbreviation search_under := (search_under NEG_INF POS_INF moveOK).
Local Abbreviation search := (search NEG_INF POS_INF moveOK).

Lemma open_window_update t v ab :
  open_window NEG_INF POS_INF t ab →
  open_window NEG_INF POS_INF t (update_if_needed v t ab).
Proof.
  unfold open_window, update_if_needed.
  destruct t; case_bool_decide; done.
Qed.

Lemma open_window_no_prune t v ab :
  (NEG_INF < v < POS_INF)%Z → open_window NEG_INF POS_INF t ab →
  can_prune v t ab = false.
Proof.
  unfold open_window, can_prune. intros Hv Hab.
  destruct t; rewrite Hab; apply bool_decide_eq_false_2; lia.
Qed.

(** The horizon case. *)
Lemma search_under_horizon fuel parent ab state depth_limit s :
  depth_limit ≤ depth parent →
  search_under (S fuel) parent ab state depth_limit s =
  store_best (depth parent) (set_score (evaluate state) parent) s.
Proof.
  intros H. unfold_search_under. by rewrite bool_decide_eq_true_2.
Qed.

(** The loop of a node at depth 0 over children at the horizon. *)
Lemma search_children_one_ply parent state children ab s current_best :
  depth parent = 0 →
  Forall (λ child, depth child = 1 ∧ is_terminal child = false ∧
                   cells_empty (togglePlayer state) child ∧
                   (NEG_INF < child_value state child < POS_INF)%Z) children →
  length (best_moves s) = 2 →
  best_moves s !! 0 = Some current_best →
  is_unset current_best = false →
  open_window NEG_INF POS_INF (team parent) ab →
  ∃ s',
    search_children (λ child ab st s, search_under 1 child ab st 1 s)
      parent state children ab (togglePlayer state) s
      = Done (s', togglePlayer state) ∧
    best_moves s' !! 0 =
      Some (pick_best (team parent) (child_value state) current_best children)
    ∧ ordered_moves s' = ordered_moves s.
Proof.
  intros Hd Hall. revert ab s current_best.
  induction Hall as [|child rest (Hc1 & Hc2 & [He1 He2] & Hv) _ IH];
    intros ab s cur Hlen H0 Hset Hab.
  { by eexists. }
  unfold_search_children. rewrite search_under_horizon by lia.
  unfold store_best at 1. rewrite Hc1.
  destruct (lookup_lt_is_Some_2 (best_moves s) 1) as [old ->]; [lia|].
  rewrite Hd. cbn [Nat.add best_moves].
  rewrite list_lookup_insert_eq by lia.
  cbn [is_terminal set_score score]. rewrite Hc2.
  rewrite (bool_decide_eq_false_2 (0 = 2)) by lia.
  cbn [best_moves]. rewrite list_lookup_insert_ne by lia. rewrite H0.
  rewrite Hset, orb_false_r.
  rewrite (untap_tap child (togglePlayer state) He1 He2).
  fold (child_value state child).
  cbn [pick_best].
  match goal with |- context [if ?b then _ else _] => destruct b eqn:Eb end.
  - unfold store_best. cbn [best_moves].
    rewrite list_lookup_insert_ne by lia. rewrite H0.
    rewrite (open_window_no_prune _ _ _ Hv)
      by by apply open_window_update.
    cbn [root ordered_moves].
    match goal with
    | |- context [search_children ?rec parent state rest ?ab0 ?ns ?s2] =>
        destruct (IH ab0 s2 (set_score (child_value state child) child))
          as (s' & -> & Hbest & Hc)
    end.
    + cbn [best_moves]. by rewrite !length_insert.
    + cbn [best_moves]. apply list_lookup_insert_eq.
      rewrite length_insert. lia.
    + done.
    + by apply open_window_update.
    + by eexists.
  - match goal with
    | |- context [search_children ?rec parent state rest ?ab0 ?ns ?s2] =>
        destruct (IH ab0 s2 cur) as (s' & -> & Hbest & Hc)
    end.
    + cbn [best_moves]. by rewrite length_insert.
    + cbn [best_moves]. by rewrite list_lookup_insert_ne by lia.
    + done.
    + done.
    + by eexists.
Qed.

(** The step of [search_under] at an inner node that takes its children
    from the move generator. *)
Lemma search_under_expand_step fuel parent ab state depth_limit s
    child rest current_best :
  depth parent < depth_limit →
  depth parent ≠ 0 ∨ ordered_moves s !! state = None →
  expand moveOK parent state = child :: rest →
  best_moves s !! depth parent = Some current_best →
  search_under (S fuel) parent ab state depth_limit s =
    match search_children
            (λ child ab st s, search_under fuel child ab st depth_limit s)
            parent state (child :: rest) ab (togglePlayer state)
            (mkSearcher (root s)
               (<[depth parent := set_score (match team parent with
                                             | HOME => NEG_INF
                                             | AWAY => POS_INF
                                             end) current_best]>
                  (best_moves s))
               (ordered_moves s)) with
    | Done (s, _) => Done s
    | Fault => Fault
    | OutOfFuel => OutOfFuel
    end.
Proof.
  intros Hd Hmiss Hch Hcur. unfold_search_under.
  rewrite bool_decide_eq_false_2 by lia.
  rewrite (children_of_expand moveOK parent state s) by done.
  rewrite Hch, Hcur. unfold store_best. by rewrite Hcur.
Qed.

Lemma expand_not_terminal parent state :
  Forall (λ child, is_terminal child = false) (expand moveOK parent state).
Proof.
  rewrite expand_placements. apply Forall_forall.
  by intros child (m & -> & _)%list_elem_of_fmap.
Qed.

(** X12.  The search one ply deep.  With a depth limit of 1, no cached
    ordering for the position, children on empty cells and static values
    strictly between the sentinels, [search] returns one of the children of
    the root, scored with the static value of the position it leads to, and
    no child has a better value for the side of the root: the maximum for
    Home, the minimum for Away. *)
Theorem search_one_ply state s :
  depth (root s) = 0 →
  ordered_moves s !! state = None →
  expand moveOK (root s) state ≠ [] →
  Forall (λ child, cells_empty (togglePlayer state) child ∧
                   (NEG_INF < child_value state child < POS_INF)%Z)
         (expand moveOK (root s) state) →
  ∃ best s',
    search state 1 s = Done (best, s') ∧
    (∃ child, child ∈ expand moveOK (root s) state ∧
              best = set_score (child_value state child) child) ∧
    ∀ child, child ∈ expand moveOK (root s) state →
      match team (root s) with
      | HOME => (child_value state child ≤ score best)%Z
      | AWAY => (score best ≤ child_value state child)%Z
      end.
Proof.
  intros Hd Hmiss Hne Hall.
  pose proof (expand_depth moveOK (root s) state) as Hdepths.
  pose proof (expand_not_terminal (root s) state) as Hterms.
  destruct (expand moveOK (root s) state) as [|child rest] eqn:Hch; [done|].
  unfold_search.
  rewrite (search_under_expand_step _ _ _ _ _ _ child rest Node_default);
    [|cbn [root]; lia|by right|exact Hch
     |cbn [root best_moves]; by rewrite Hd].
  cbn [root best_moves ordered_moves]. rewrite Hd.
  set (cur := set_score _ Node_default).
  match goal with
  | |- context [search_children ?rec ?p state ?ch ?ab0 ?ns ?s2] =>
      destruct (search_children_one_ply p state ch ab0 s2 cur)
        as (s' & -> & Hbest & Hc)
  end; [exact Hd| |reflexivity|reflexivity|reflexivity
       |by destruct (team (root s))|].
  { apply Forall_forall. intros ch Hin.
    rewrite Forall_forall in Hall. destruct (Hall ch Hin) as [He Hv].
    rewrite Forall_forall in Hdepths. specialize (Hdepths ch Hin).
    rewrite Forall_forall in Hterms. specialize (Hterms ch Hin).
    rewrite Hd in Hdepths.
    split; [exact Hdepths|split; [exact Hterms|split; [exact He|exact Hv]]]. }
  destruct (best_moves s') as [|front tl] eqn:Eb; [discriminate Hbest|].
  cbn [lookup list_lookup] in Hbest. apply (inj Some) in Hbest.
  rewrite Hbest.
  eexists _, _. split; [reflexivity|]. split.
  - assert (match team (root s) with
            | HOME => bool_decide (score cur < child_value state child)%Z
            | AWAY => bool_decide (child_value state child < score cur)%Z
            end = true) as Hfirst.
    { apply Forall_cons in Hall as [[_ Hv] _]. subst cur.
      destruct (team (root s)); cbn [score set_score];
        apply bool_decide_eq_true_2; lia. }
    cbn [pick_best]. rewrite Hfirst.
    destruct (pick_best_origin (team (root s)) (child_value state)
                (set_score (child_value state child) child) rest)
      as [->|(ch & Hin & ->)].
    + exists child. split; [by left|reflexivity].
    + exists ch. split; [by right|reflexivity].
  - intros ch Hin.
    pose proof (pick_best_optimal (team (root s)) (child_value state) cur
                  (child :: rest)) as Hopt.
    destruct (team (root s)); destruct Hopt as [_ Hopt]; by apply Hopt.
Qed.

End OnePly.

(** ** More on placing and taking off *)

Lemma same_frame_tap node state : same_frame state (tap node state).
Proof.
  unfold tap. eapply same_frame_trans; apply same_frame_setCell.
Qed.

(** X13.  [tap] on two empty cells writes the symbol of the side that
    placed, the opponent of the node's team, into both cells of the
    placement, changes no other cell and keeps the frame; the pair is not
    placable afterwards. *)
Theorem tap_occupies node state :
  cells_empty state node →
  let sym := match team node with HOME => AWAYSYM | AWAY => HOMESYM end in
  let m := parent_move node in
  getCell (r1 m) (c1 m) (tap node state) = sym ∧
  getCell (r2 m) (c2 m) (tap node state) = sym ∧
  (∀ r c, (r, c) ≠ (r1 m, c1 m) → (r, c) ≠ (r2 m, c2 m) →
          getCell r c (tap node state) = getCell r c state) ∧
  same_frame state (tap node state) ∧
  Evaluator.placable (r1 m) (c1 m) (r2 m) (c2 m) (tap node state) = false.
Proof.
  intros [H1 H2] sym m. subst m. set (m := parent_move node) in *.
  assert (is_Some (cell (r1 m) (c1 m) state)) as [x1 Hx1].
  { rewrite getCell_cell in H1.
    destruct (cell (r1 m) (c1 m) state); [by eexists|done]. }
  assert (is_Some (cell (r2 m) (c2 m) state)) as [x2 Hx2].
  { rewrite getCell_cell in H2.
    destruct (cell (r2 m) (c2 m) state); [by eexists|done]. }
  assert (getCell (r1 m) (c1 m) (tap node state) = sym) as G1.
  { unfold tap. fold sym m. rewrite getCell_setCell.
    destruct (decide ((r1 m, c1 m) = (r2 m, c2 m))) as [E|E].
    - rewrite cell_setCell, decide_True by done. by rewrite Hx1.
    - rewrite getCell_setCell, decide_True by done. by rewrite Hx1. }
  assert (getCell (r2 m) (c2 m) (tap node state) = sym) as G2.
  { unfold tap. fold sym m. rewrite getCell_setCell, decide_True by done.
    rewrite cell_setCell. destruct (decide _); by rewrite Hx2. }
  split; [done|]. split; [done|]. split; [|split].
  - intros r c Hn1 Hn2. unfold tap. fold sym m.
    by rewrite !getCell_setCell, !decide_False.
  - apply same_frame_tap.
  - unfold Evaluator.placable. rewrite grid_empty_getCell, G1.
    rewrite bool_decide_eq_false_2; [done|]. subst sym.
    by destruct (team node).
Qed.

(** X14.  [untap] is no undo: it writes the empty symbol whatever the cells
    held.  When the first cell of the placement holds a symbol other than
    the empty one, placing the node and taking it off does not give the
    position back. *)
Theorem untap_erases node state :
  let m := parent_move node in
  getCell (r1 m) (c1 m) state ≠ EMPTYSYM →
  getCell (r1 m) (c1 m) state ≠ "000"%char →
  getCell (r1 m) (c1 m) (untap node (tap node state)) = EMPTYSYM ∧
  untap node (tap node state) ≠ state.
Proof.
  intros m Hne Hnul. subst m. set (m := parent_move node) in *.
  assert (getCell (r1 m) (c1 m) (untap node (tap node state)) = EMPTYSYM) as G.
  { assert (is_Some (cell (r1 m) (c1 m) state)) as [x Hx].
    { rewrite getCell_cell in Hnul.
      destruct (cell (r1 m) (c1 m) state); [by eexists|done]. }
    unfold untap, tap. fold m.
    set (sym := match team node with HOME => AWAYSYM | AWAY => HOMESYM end).
    rewrite getCell_setCell.
    destruct (decide ((r1 m, c1 m) = (r2 m, c2 m))) as [E|E].
    - rewrite !cell_setCell, !decide_True by done. by rewrite Hx.
    - rewrite getCell_setCell, decide_True by done.
      rewrite !cell_setCell, decide_False, decide_True by done.
      by rewrite Hx. }
  split; [done|]. intros Heq. rewrite Heq in G. done.
Qed.

Section Runs.

Variables NEG_INF POS_INF : Z.
Variable moveOK : DomineeringState → Location → bool.

Local Abbreviation search_under := (search_under NEG_INF POS_INF moveOK).
Local Abbreviation search := (search NEG_INF POS_INF moveOK).

(** X15.  No access out of range without consumption, below the wrap.
    From a root at depth 0, when the cache has no ordering for the
    position, [search] runs to its end for every depth limit below
    [UINT_MAX]: it returns a node, keeps the root, leaves a table of
    [depth_limit + 1] entries and a cache whose nodes are children of depth
    2 nodes if they were before.  At [UINT_MAX] the size of the table wraps
    to 0 and the first access of the search is out of range, whatever the
    engine and the position. *)
Theorem search_runs_without_entry state depth_limit s :
  (depth (root s) = 0 →
   ordered_moves s !! state = None →
   (Z.of_nat depth_limit < UINT_MAX)%Z →
   ∃ n s', search state depth_limit s = Done (n, s') ∧
           root s' = root s ∧
           length (best_moves s') = depth_limit + 1 ∧
           (cache_wf s → cache_wf s')) ∧
  (Z.of_nat depth_limit = UINT_MAX → search state depth_limit s = Fault).
Proof.
  split.
  - intros Hd Hmiss Hmax. unfold_search.
    rewrite (unsigned_succ_below _ Hmax).
    match goal with
    | |- context [search_under ?f ?p ?ab0 ?st ?L0 ?s0] =>
        destruct (search_under_done NEG_INF POS_INF moveOK f p ab0 st L0 s0)
          as (s1 & Hrun & Hlen)
    end; [cbn [root]; lia|cbn [root]; lia
         |cbn [best_moves]; by rewrite length_replicate|by right|].
    rewrite Hrun.
    destruct (search_under_frame _ _ _ _ _ _ _ _ _ _ Hrun) as [Hroot _].
    destruct (best_moves s1) as [|front tl] eqn:Eb; [simpl in Hlen; lia|].
    eexists _, _. split; [reflexivity|].
    split; [exact Hroot|].
    split; [cbn [move_order best_moves]; by rewrite Eb|].
    intros Hwf. apply cache_wf_move_order.
    by eapply search_under_cache_wf; [|exact Hrun].
  - apply search_wraps.
Qed.

End Runs.

(** ** Instances of the further properties *)

Lemma mark_cells_witness :
  let s := position_of ["W."]%string HOME in
  wf_state s ∧ on_board s 0 1 ∧
  cell 0 1 s = Some EMPTYSYM ∧
  cell 0 1 (Evaluator.mark 0 1 s) = Some MARKEDSYM ∧
  cell 0 0 (Evaluator.mark 0 1 s) = Some HOMESYM.
Proof.
  intros s.
  assert (wf_state s) as Hwf by (split; [done|by repeat constructor]).
  assert (on_board s 0 1) as Hon by (by vm_compute).
  assert (cell 0 1 s = Some EMPTYSYM) as He by reflexivity.
  destruct (mark_cells 0 1 s Hwf Hon) as (_ & _ & Hmark & _ & Hrest).
  split; [done|]. split; [done|]. split; [done|].
  split; [by apply Hmark|].
  rewrite (Hrest 0 0)%Z; [done|by vm_compute|done].
Defined.

Lemma clear_marks_spec_witness :
  let s := position_of [".W"; ".."]%string HOME in
  wf_state s ∧ no_marks s ∧ Evaluator.clear_marks s = s.
Proof.
  intros s.
  assert (wf_state s) as Hwf by (split; [done|by repeat constructor]).
  assert (no_marks s) as Hno by (by repeat constructor).
  split; [done|]. split; [done|]. by apply (clear_marks_spec s).
Defined.

Lemma evaluate_bounded_witness :
  let s := position_of [".W"; ".."]%string HOME in
  wf_state s ∧ (- (ROWS s * COLS s) ≤ evaluate s ≤ ROWS s * COLS s)%Z.
Proof.
  intros s.
  assert (wf_state s) as Hwf by (split; [done|by repeat constructor]).
  split; [done|]. by apply (evaluate_bounded s).
Defined.

Lemma search_under_keeps_shallower_witness :
  let state := position_of ["B."; "B."]%string HOME in
  let child := Node_new HOME 1 (mkLocation 0 0 1 0) in
  let s := mkSearcher (root (fresh_searcher AWAY))
             [set_score 5 Node_default; Node_default; Node_default] ∅ in
  ∃ s', search_under INT_MIN INT_MAX legal_placement 2 child
          (mkAlphaBeta INT_MIN INT_MAX) state 2 s = Done s' ∧
        best_moves s' !! 0 = Some (set_score 5 Node_default).
Proof.
  intros state child s. eexists. split; [vm_compute; reflexivity|].
  refine (proj2 (proj2 (search_under_keeps_shallower INT_MIN INT_MAX
            legal_placement 2 child (mkAlphaBeta INT_MIN INT_MAX) state 2 s _
            _)) 0 _).
  - vm_compute. reflexivity.
  - simpl. lia.
Defined.

Lemma search_consuming_faults_witness :
  search INT_MIN INT_MAX legal_placement pos_3x3 2 cached_engine = Fault.
Proof.
  eapply (search_consuming_faults INT_MIN INT_MAX legal_placement);
    [done|lia|apply lookup_singleton_eq|simpl; lia].
Defined.

Lemma search_consuming_returns_first_witness :
  ∃ s', search INT_MIN INT_MAX legal_placement pos_3x3 3 cached_engine
          = Done (set_score 0 (set_score 2 (Node_new AWAY 3
                                              (mkLocation 1 0 1 1))), s') ∧
        ordered_moves s' = ∅.
Proof.
  eapply (search_consuming_returns_first INT_MIN INT_MAX legal_placement);
    [done|lia|by vm_compute|apply lookup_singleton_eq|by repeat constructor
    |done].
Defined.

Lemma expand_revisions_witness :
  let state := position_of [".."]%string HOME in
  let parent := root (fresh_searcher HOME) in
  team parent = who state ∧
  expand legal_placement parent state
    = retag <$> Legacy.expand legal_placement parent state.
Proof.
  intros state parent. split; [done|].
  by apply (expand_revisions legal_placement parent state).
Defined.

Lemma search_one_ply_witness :
  let state := position_of [".."; ".."]%string HOME in
  let s := fresh_searcher HOME in
  ∃ best s',
    search INT_MIN INT_MAX legal_placement state 1 s = Done (best, s') ∧
    ∀ child, child ∈ expand legal_placement (root s) state →
             (child_value state child ≤ score best)%Z.
Proof.
  intros state s.
  assert (expand legal_placement (root s) state =
          [Node_new AWAY 1 (mkLocation 0 0 0 1);
           Node_new AWAY 1 (mkLocation 1 0 1 1)]) as Hexp by by vm_compute.
  destruct (search_one_ply INT_MIN INT_MAX legal_placement state s)
    as (best & s' & Hrun & _ & Hopt).
  - done.
  - apply lookup_empty.
  - by rewrite Hexp.
  - rewrite Hexp.
    repeat (constructor; [split; [split; by vm_compute|by vm_compute]|]).
    constructor.
  - exists best, s'. split; [exact Hrun|]. intros child Hin.
    by apply (Hopt child Hin).
Defined.

Lemma tap_occupies_witness :
  let node := Node_new AWAY 1 (mkLocation 0 0 0 1) in
  let state := position_of [".."]%string HOME in
  cells_empty state node ∧
  getCell 0 0 (tap node state) = HOMESYM ∧
  Evaluator.placable 0 0 0 1 (tap node state) = false.
Proof.
  intros node state.
  assert (cells_empty state node) as H by (split; by vm_compute).
  split; [done|].
  destruct (tap_occupies node state H) as (H1 & _ & _ & _ & H5). by split.
Defined.

Lemma untap_erases_witness :
  let node := Node_new AWAY 1 (mkLocation 0 0 0 1) in
  let state := position_of ["B."]%string HOME in
  getCell 0 0 state ≠ EMPTYSYM ∧ untap node (tap node state) ≠ state.
Proof.
  intros node state.
  assert (getCell 0 0 state ≠ EMPTYSYM) as H by by vm_compute.
  split; [done|].
  by apply (untap_erases node state H).
Defined.

Lemma search_runs_without_entry_witness :
  ∃ n s', search INT_MIN INT_MAX legal_placement
            (position_of [".."; ".."]%string HOME) 3 cached_engine
          = Done (n, s') ∧ length (best_moves s') = 4.
Proof.
  destruct (proj1 (search_runs_without_entry INT_MIN INT_MAX legal_placement
              (position_of [".."; ".."]%string HOME) 3 cached_engine))
    as (n & s' & Hrun & _ & Hlen & _).
  - done.
  - by apply lookup_singleton_ne.
  - by vm_compute.
  - by exists n, s'.
Defined.

(** ** The static evaluation and the side to move *)

Lemma foldl_related {A B C} (R : A → B → Prop) (f : A → C → A)
    (g : B → C → B) (l : list C) a b :
  R a b → (∀ a b x, R a b → R (f a x) (g b x)) →
  R (foldl f a l) (foldl g b l).
Proof.
  intros Hab Hstep. revert a b Hab.
  induction l as [|x l IH]; intros a b Hab; simpl; [done|].
  apply IH. by apply Hstep.
Qed.

Lemma with_who_setCell w r c sym s :
  setCell r c sym (with_who w s) = with_who w (setCell r c sym s).
Proof.
  unfold setCell, with_who, in_board. simpl.
  by destruct (_ && _).
Qed.

Lemma with_who_mark w r c s :
  Evaluator.mark r c (with_who w s) = with_who w (Evaluator.mark r c s).
Proof.
  unfold Evaluator.mark.
  change (getCell r c (with_who w s)) with (getCell r c s).
  case_bool_decide; [done|apply with_who_setCell].
Qed.

Lemma with_who_clear_marks w s :
  Evaluator.clear_marks (with_who w s) = with_who w (Evaluator.clear_marks s).
Proof.
  unfold Evaluator.clear_marks, for_rows_cols.
  change (ROWS (with_who w s)) with (ROWS s).
  change (COLS (with_who w s)) with (COLS s).
  apply (foldl_related (λ a b, a = with_who w b)); [done|].
  intros a b r ->.
  apply (foldl_related (λ a b, a = with_who w b)); [done|].
  intros a' b' c ->.
  change (getCell r c (with_who w b')) with (getCell r c b').
  case_bool_decide; [apply with_who_setCell|done].
Qed.

Ltac pass_ignores_who :=
  intros; unfold for_rows_cols, for_cols_rows;
  match goal with
  | |- same_but_who ?w _ _ =>
      apply (foldl_related (same_but_who w)); [done|];
      intros ? ? ? ?;
      apply (foldl_related (same_but_who w)); [done|];
      intros [? ?] [? ?] ? [? ?]; simpl in *; subst;
      match goal with
      | |- same_but_who _ (if ?b1 then _ else _) (if ?b2 then _ else _) =>
          change b1 with b2; destruct b2
      end; [|done];
      split; [done|]; simpl; by rewrite !with_who_mark
  end.

Lemma with_who_EvalHomeReserved w s :
  same_but_who w (EvalHomeReserved (with_who w s)) (EvalHomeReserved s).
Proof. unfold EvalHomeReserved. pass_ignores_who. Qed.

Lemma with_who_EvalHomeOpen w s :
  same_but_who w (EvalHomeOpen (with_who w s)) (EvalHomeOpen s).
Proof. unfold EvalHomeOpen. pass_ignores_who. Qed.

Lemma with_who_EvalAwayReserved w s :
  same_but_who w (EvalAwayReserved (with_who w s)) (EvalAwayReserved s).
Proof. unfold EvalAwayReserved. pass_ignores_who. Qed.

Lemma with_who_EvalAwayOpen w s :
  same_but_who w (EvalAwayOpen (with_who w s)) (EvalAwayOpen s).
Proof. unfold EvalAwayOpen. pass_ignores_who. Qed.

(** X16.  The static evaluation does not look at the side to move: two
    positions with the same grid have the same score, in particular a
    position and the one with the player toggled. *)
Theorem evaluate_ignores_side (s : DomineeringState) :
  (∀ w, evaluate (with_who w s) = evaluate s) ∧
  evaluate (togglePlayer s) = evaluate s.
Proof.
  assert (∀ w, evaluate (with_who w s) = evaluate s) as H.
  { intros w. rewrite !evaluate_passes.
    destruct (with_who_EvalHomeReserved w s) as [E1 S1].
    rewrite E1, S1.
    destruct (with_who_EvalHomeOpen w (EvalHomeReserved s).2) as [E2 S2].
    rewrite E2, S2, with_who_clear_marks.
    set (cleared := Evaluator.clear_marks _).
    destruct (with_who_EvalAwayReserved w cleared) as [E3 S3].
    rewrite E3, S3.
    destruct (with_who_EvalAwayOpen w (EvalAwayReserved cleared).2) as [E4 _].
    by rewrite E4. }
  split; [done|]. apply (H (toggle (who s))).
Qed.

(** ** Reserved pairs *)

Lemma placable_needs_both r1 c1 r2 c2 s :
  Evaluator.grid_empty r1 c1 s = false ∨ Evaluator.grid_empty r2 c2 s = false →
  Evaluator.placable r1 c1 r2 c2 s = false.
Proof.
  unfold Evaluator.placable. intros [->| ->]; [done|apply andb_false_r].
Qed.

(** X17.  A reserved pair is out of the opponent's reach.  When
    [reserved_for_home] accepts a pair, the pair is placable and no vertical
    pair through either of its cells is; when [reserved_for_away] accepts a
    pair, the pair is placable and no horizontal pair through either of its
    cells is. *)
Theorem reserved_out_of_reach r1 c1 r2 c2 (s : DomineeringState) :
  (Evaluator.reserved_for_home r1 c1 r2 c2 s = true →
   Evaluator.placable r1 c1 r2 c2 s = true ∧
   Evaluator.placable r1 c1 (r1 + 1) c1 s = false ∧
   Evaluator.placable (r1 - 1) c1 r1 c1 s = false ∧
   Evaluator.placable r2 c2 (r2 + 1) c2 s = false ∧
   Evaluator.placable (r2 - 1) c2 r2 c2 s = false) ∧
  (Evaluator.reserved_for_away r1 c1 r2 c2 s = true →
   Evaluator.placable r1 c1 r2 c2 s = true ∧
   Evaluator.placable r1 c1 r1 (c1 + 1) s = false ∧
   Evaluator.placable r1 (c1 - 1) r1 c1 s = false ∧
   Evaluator.placable r2 c2 r2 (c2 + 1) s = false ∧
   Evaluator.placable r2 (c2 - 1) r2 c2 s = false).
Proof.
  split.
  - intros H. split; [by apply reserved_for_home_placable|].
    unfold Evaluator.reserved_for_home in H.
    destruct (Evaluator.placable r1 c1 r2 c2 s); [|done]. simpl in H.
    apply andb_true_iff in H as [[Ha Hb]%andb_true_iff [Hc Hd]%andb_true_iff].
    apply negb_true_iff in Ha, Hb, Hc, Hd.
    repeat split; apply placable_needs_both; auto.
  - intros H. split; [by apply reserved_for_away_placable|].
    unfold Evaluator.reserved_for_away in H.
    destruct (Evaluator.placable r1 c1 r2 c2 s); [|done]. simpl in H.
    apply andb_true_iff in H as [[Ha Hb]%andb_true_iff [Hc Hd]%andb_true_iff].
    apply negb_true_iff in Ha, Hb, Hc, Hd.
    repeat split; apply placable_needs_both; auto.
Qed.

Lemma reserved_out_of_reach_witness :
  let s := position_of ["WW"; ".."; "BB"]%string HOME in
  Evaluator.reserved_for_home 1 0 1 1 s = true ∧
  Evaluator.placable 1 0 2 0 s = false.
Proof.
  intros s.
  assert (Evaluator.reserved_for_home 1 0 1 1 s = true) as H by by vm_compute.
  split; [done|].
  by apply (proj1 (reserved_out_of_reach 1 0 1 1 s) H).
Defined.

(** ** The depth of the recursion *)

Section Fuel.

Variables NEG_INF POS_INF : Z.
Variable moveOK : DomineeringState → Location → bool.

Local Abbreviation search_children := (search_children NEG_INF POS_INF).
Local Abbreviation search_under := (search_under NEG_INF POS_INF moveOK).
Local Abbreviation search := (search NEG_INF POS_INF moveOK).

Lemma store_best_fuel d n s : store_best d n s ≠ OutOfFuel.
Proof. unfold store_best. by destruct (best_moves s !! d). Qed.

(** The loop does not run out of nested calls when its recursive calls do
    not. *)
Lemma search_children_fuel rec parent current_state children ab next_state s :
  (∀ child ab st s, child ∈ children → rec child ab st s ≠ OutOfFuel) →
  search_children rec parent current_state children ab next_state s
    ≠ OutOfFuel.
Proof.
  revert ab next_state s.
  induction children as [|child rest IH]; intros ab next_state s Hrec;
    [done|].
  unfold_search_children.
  assert (∀ ab next_state s,
            search_children rec parent current_state rest ab next_state s
              ≠ OutOfFuel) as IH'.
  { intros ab0 ns0 s0. apply IH. intros ch ab1 st s1 Hin.
    apply Hrec. by right. }
  pose proof (Hrec child ab (tap child next_state) s (list_elem_of_here _ _))
    as Hchild.
  destruct (rec child ab (tap child next_state) s) as [s1| |]; [|done|done].
  destruct (best_moves s1 !! (depth parent + 1)) as [next_move|]; [|done].
  destruct (is_terminal next_move).
  { pose proof (store_best_fuel (depth parent)
      (set_as_terminal NEG_INF POS_INF
         (untap child (tap child next_state))
         (set_score (score next_move) child)) s1) as Hst.
    by destruct (store_best _ _ s1). }
  set (s2 := if bool_decide (depth parent = 2) then _ else s1).
  clearbody s2.
  destruct (best_moves s2 !! depth parent) as [current_best|]; [|done].
  match goal with |- context [if ?b then _ else _] => destruct b end;
    [|apply IH'].
  pose proof (store_best_fuel (depth parent)
                (set_score (score next_move) child) s2) as Hst.
  destruct (store_best _ _ s2); [|done|done].
  destruct (can_prune _ _ _); [done|apply IH'].
Qed.

(** [depth_limit - depth parent + 1] nested calls are enough for a node,
    also for a root that takes its children from a well-formed cache. *)
Lemma search_under_fuel fuel parent ab state depth_limit s :
  depth parent ≠ 0 ∨ cache_wf s →
  depth_limit - depth parent < fuel →
  search_under fuel parent ab state depth_limit s ≠ OutOfFuel.
Proof.
  revert parent ab state s.
  induction fuel as [|fuel IH]; intros parent ab state s Hwf Hfuel; [lia|].
  unfold_search_under.
  case_bool_decide as Hh; [apply store_best_fuel|].
  destruct (children_of moveOK parent state s) as [children s0] eqn:Hch.
  assert (Forall (λ child, depth child ≠ 0 ∧
                           depth_limit - depth child < fuel) children)
    as Hkids.
  { unfold_children_of in Hch.
    pose proof (expand_depth moveOK parent state) as He.
    assert (Forall (λ child, depth child ≠ 0 ∧
                             depth_limit - depth child < fuel)
              (expand moveOK parent state)) as He'.
    { eapply Forall_impl; [exact He|]. intros ch Hd. simpl in Hd. lia. }
    destruct (ordered_moves s !! state) as [ordered|] eqn:Hhit;
      [case_bool_decide as H0|]; inversion Hch; subst; try done.
    destruct Hwf as [?|Hwf]; [done|].
    eapply Forall_impl; [exact (Hwf state children Hhit)|].
    intros ch Hd. simpl in Hd. lia. }
  clear Hch.
  destruct (best_moves s0 !! depth parent) as [current_best|]; [|done].
  destruct children as [|child rest]; [apply store_best_fuel|].
  match goal with
  | |- context [store_best ?d ?n s0] =>
      pose proof (store_best_fuel d n s0) as Hst;
      destruct (store_best d n s0) as [s1| |]; [|done|done]
  end.
  match goal with
  | |- context [search_children ?rec ?p ?cs ?ch ?ab0 ?ns ?s2] =>
      pose proof (search_children_fuel rec p cs ch ab0 ns s2) as Hloop;
      destruct (search_children rec p cs ch ab0 ns s2) as [[s2' ns']| |];
        [done|done|]
  end.
  exfalso. apply Hloop; [|done].
  intros ch ab0 st s2 Hin. rewrite Forall_forall in Hkids.
  destruct (Hkids ch Hin) as [Hd0 Hf]. apply IH; [by left|done].
Qed.

(** X18.  The recursion is bounded by the depth limit.  With a cache whose
    nodes are children of depth 2 nodes, [search] never needs more than
    [depth_limit + 1] nested calls of [search_under]: it ends with a result
    or with an access out of the table. *)
Theorem search_recursion_bounded state depth_limit s :
  cache_wf s → search state depth_limit s ≠ OutOfFuel.
Proof.
  intros Hwf. unfold_search.
  match goal with
  | |- context [search_under ?f ?p ?ab0 ?st ?L0 ?s0] =>
      pose proof (search_under_fuel f p ab0 st L0 s0) as Hrun;
      destruct (search_under f p ab0 st L0 s0) as [s1| |]
  end.
  - by destruct (best_moves s1).
  - done.
  - exfalso. apply Hrun; [by right|lia|done].
Qed.

End Fuel.

Lemma search_recursion_bounded_witness :
  cache_wf cached_engine ∧
  search INT_MIN INT_MAX legal_placement pos_3x3 2 cached_engine ≠ OutOfFuel.
Proof.
  assert (cache_wf cached_engine) as Hwf.
  { apply map_Forall_singleton. by repeat constructor. }
  split; [done|].
  by apply (search_recursion_bounded INT_MIN INT_MAX legal_placement).
Defined.

(** ** The entries of the cache *)

Section Entries.

Variables NEG_INF POS_INF : Z.
Variable moveOK : DomineeringState → Location → bool.

Local Abbreviation search_under := (search_under NEG_INF POS_INF moveOK).
Local Abbreviation search := (search NEG_INF POS_INF moveOK).

(** A property of the cached lists that appending a node establishes or
    keeps is kept by the recursion. *)
Lemma search_under_cache_entries (P : list Node → Prop)
    fuel parent ab state depth_limit s s' :
  (∀ l n, l = [] ∨ P l → P (l ++ [n])) →
  map_Forall (λ _, P) (ordered_moves s) →
  search_under fuel parent ab state depth_limit s = Done s' →
  map_Forall (λ _, P) (ordered_moves s').
Proof.
  intros Hpush. revert parent ab state s s'.
  induction fuel as [|fuel IH]; intros parent ab state s s' Hs Hrun; [done|].
  unfold_search_under in Hrun.
  case_bool_decide.
  { by apply store_best_Done in Hrun as [-> _]. }
  destruct (children_of moveOK parent state s) as [children s0] eqn:Hch.
  assert (map_Forall (λ _, P) (ordered_moves s0)) as Hs0.
  { unfold_children_of in Hch.
    destruct (ordered_moves s !! state); [case_bool_decide|];
      inversion Hch; subst; try done; apply map_Forall_empty. }
  clear Hch.
  destruct (best_moves s0 !! depth parent) as [current_best|]; [|done].
  destruct children as [|child rest].
  { by apply store_best_Done in Hrun as [-> _]. }
  destruct (store_best _ _ s0) as [s1| |] eqn:Est; try done.
  apply store_best_Done in Est as [-> _].
  match type of Hrun with
  | match ?run with _ => _ end = _ =>
      destruct run as [[s2 ns]| |] eqn:Eloop; try done
  end.
  inversion Hrun; subst.
  eapply (search_children_invariant NEG_INF POS_INF
            (λ s, map_Forall (λ _, P) (ordered_moves s)))
    in Eloop; [done|..|done].
  - by intros d n s0' s1 Hs1 [-> _]%store_best_Done.
  - intros _ ch v s1 _ Hs1. unfold push_ordered. simpl.
    apply map_Forall_insert_2; [|done]. apply Hpush.
    destruct (ordered_moves s1 !! state) as [l|] eqn:E; simpl; [|by left].
    right. by apply (Hs1 state l).
  - intros ch ab0 st s1 s2' _ Hs1 Hrun0. by eapply IH.
Qed.

(** X19.  No empty ordering.  When no cached list is empty before a search,
    none is after it: the lists the search creates start with the child it
    has just scored and the re-sort drops nothing, so a consumed ordering
    always offers a child. *)
Theorem search_keeps_orderings_inhabited state depth_limit s n s' :
  orderings_inhabited s →
  search state depth_limit s = Done (n, s') →
  orderings_inhabited s'.
Proof.
  unfold orderings_inhabited. intros Hs Hrun. unfold_search in Hrun.
  match type of Hrun with
  | match ?run with _ => _ end = _ =>
      destruct run as [s1| |] eqn:Erun; try done
  end.
  apply (search_under_cache_entries (λ moves, moves ≠ [])) in Erun;
    [|by intros [|x l] m _|done].
  destruct (best_moves s1); [done|]. inversion Hrun; subst.
  unfold move_order. cbn [ordered_moves].
  apply map_Forall_fmap. eapply map_Forall_impl; [exact Erun|].
  intros key moves Hne. simpl. intros Hnil.
  apply Hne. apply Permutation_nil_r.
  destruct (team (root s1)); rewrite <- Hnil;
    symmetry; apply merge_sort_Permutation.
Qed.

End Entries.

Lemma search_keeps_orderings_inhabited_witness :
  orderings_inhabited (fresh_searcher HOME) ∧
  ∃ n s', search INT_MIN INT_MAX legal_placement
            (position_of ["..."; "..."; "..."]%string HOME) 3
            (fresh_searcher HOME) = Done (n, s') ∧
          orderings_inhabited s' ∧
          length <$> ordered_moves s' !! pos_3x3 = Some 3.
Proof.
  assert (orderings_inhabited (fresh_searcher HOME)) as H
    by apply map_Forall_empty.
  split; [done|].
  destruct (search_done INT_MIN INT_MAX legal_placement
              (position_of ["..."; "..."; "..."]%string HOME) 3
              (fresh_searcher HOME)) as (n & s' & Hrun);
    [done|apply lookup_empty|by vm_compute|].
  assert (match search INT_MIN INT_MAX legal_placement
                  (position_of ["..."; "..."; "..."]%string HOME) 3
                  (fresh_searcher HOME) with
          | Done (_, s') => length <$> ordered_moves s' !! pos_3x3
          | _ => None
          end = Some 3) as Hentry by (vm_compute; reflexivity).
  rewrite Hrun in Hentry.
  exists n, s'. split; [done|]. split; [|done].
  by apply (search_keeps_orderings_inhabited INT_MIN INT_MAX legal_placement
              _ _ _ _ _ H Hrun).
Defined.
